(** * LocalStorage storage engine (src/platform/storage/local-storage.ts)

    A shallow embedding of the class [LocalStorage] and of the part of the
    JavaScript host it runs on, followed by the properties of the class.

    - JavaScript values, [ToString], [JSON.stringify] and [JSON.parse] are
      functions on an inductive type of values; [JSON.parse] is a recursive
      descent parser for the JSON grammar.
    - A thrown error is a [Completion]; code that reads or writes the host
      state is a function from states to a completion and a state.
    - [new Promise] runs its executor at once and returns the settled
      promise together with the host state.
    - [window.localStorage] is any implementation of [Storage.Interface];
      [BrowserStore] is the one of a browser: a finite map from strings to
      strings with a quota, which scripts may be forbidden to reach.
    - The methods of the class are in the module [LocalStorage], one
      definition per method, in the order of the source. *)

From Stdlib Require Import ZArith NArith Lia Bool Ascii.
From stdpp Require Import base tactics option list strings gmap.

Open Scope N_scope.

(** ** JavaScript strings

    A JavaScript string is a sequence of UTF-16 code units.  A code unit is
    modelled as a number in [N] (the host only produces values below 65536). *)

Abbreviation JsStr := (list N).

(** [js s] is the JavaScript string written with the ASCII characters of [s]. *)
Fixpoint js (s : string) : JsStr :=
  match s with
  | EmptyString => []
  | String a r => N_of_ascii a :: js r
  end.

(** [strip_prefix p s] is [Some r] when [s = p ++ r]. *)
Fixpoint strip_prefix (p s : JsStr) : option JsStr :=
  match p with
  | [] => Some s
  | c :: p' =>
      match s with
      | [] => None
      | d :: s' => if c =? d then strip_prefix p' s' else None
      end
  end.

(** ** Exceptions and completions *)

Inductive JsError : Type :=
| SyntaxError (message : string)
| TypeError (message : string)
| ReferenceError (message : string)
| DOMException (name : string) (message : string).

(** The outcome of evaluating an expression: a value, or a thrown error. *)
Inductive Completion (A : Type) : Type :=
| Normal (a : A)
| Throw (e : JsError).
Arguments Normal {A} a.
Arguments Throw {A} e.

Definition cbind {A B} (c : Completion A) (k : A -> Completion B) : Completion B :=
  match c with
  | Normal a => k a
  | Throw e => Throw e
  end.

(** [try { body } catch (e) { handler e }] on pure code. *)
Definition try_catch {A} (body : Completion A) (handler : JsError -> Completion A)
  : Completion A :=
  match body with
  | Normal a => Normal a
  | Throw e => handler e
  end.

Declare Scope js_scope.
Delimit Scope js_scope with JS.
Notation "'do' x <- c ; k" := (cbind c (fun x => k))
  (at level 10, x name, c at level 100, k at level 200) : js_scope.
Open Scope js_scope.

(** ** JavaScript values

    A finite number is a decimal: [Num m sc] is the number [m / 10^sc].
    Every finite double is such a decimal, and it is held here by the
    shortest decimal that identifies it, which is the one [Number::toString]
    prints.  The other numbers are the negative zero, NaN and the two
    infinities.  Rounding to binary64 is outside the model: a literal with
    more digits than a double holds, or beyond its range, is read as the
    decimal it writes.

    Objects are ordinary objects: own enumerable data properties with string
    keys, listed in the order the engine enumerates them.  Values are trees.
    Functions, symbols, exotic objects other than arrays, objects that
    define their own conversion ([toString], [valueOf], [toJSON]) and
    structures that contain themselves are outside the model, and so is the
    depth of recursion that an engine allows. *)

Inductive JsNum : Type :=
| Num (m : Z) (sc : N)
| NegZero
| NaN
| Infinity (negative : bool).

#[warnings="-register-all"]
Inductive JsValue : Type :=
| JsUndefined
| JsNull
| JsBool (b : bool)
| JsNumber (x : JsNum)
| JsBigInt (z : Z)
| JsString (s : JsStr)
| JsArray (elems : list JsValue)
| JsObject (props : list (JsStr * JsValue)).

(** The number with integer value [z]. *)
Definition JsInt (z : Z) : JsValue := JsNumber (Num z 0).

(** [Array.isArray]. *)
Definition Array_isArray (v : JsValue) : bool :=
  match v with
  | JsArray _ => true
  | _ => false
  end.

(** ** Decimal digits *)

Definition is_digit (c : N) : bool := (48 <=? c) && (c <=? 57).

Definition digit_val (c : N) : N := c - 48.

(** Value of a digit string, most significant digit first. *)
Definition digits_to_N_acc (l : JsStr) (acc : N) : N :=
  fold_left (fun a c => a * 10 + digit_val c) l acc.

Definition digits_to_N (l : JsStr) : N := digits_to_N_acc l 0.

Fixpoint digits_fuel (fuel : nat) (n : N) (acc : JsStr) : JsStr :=
  match fuel with
  | O => acc
  | S f =>
      let acc' := (48 + n mod 10) :: acc in
      if n / 10 =? 0 then acc' else digits_fuel f (n / 10) acc'
  end.

(** The decimal digits of [n], without leading zeros ([0] is printed "0"). *)
Definition N_to_digits (n : N) : JsStr :=
  digits_fuel (S (N.to_nat (N.log2 n))) n [].

(** Removes the zeros at the end of a digit string. *)
Fixpoint rstrip0 (d : JsStr) : JsStr :=
  match d with
  | [] => []
  | c :: t =>
      match rstrip0 t with
      | [] => if c =? 48 then [] else [c]
      | t' => c :: t'
      end
  end.

(** [span_digits s] splits [s] after its longest prefix of digits. *)
Fixpoint span_digits (s : JsStr) : JsStr * JsStr :=
  match s with
  | [] => ([], [])
  | c :: t =>
      if is_digit c then
        let (d, r) := span_digits t in (c :: d, r)
      else ([], s)
  end.

(** ** [Number::toString] and [ToString] *)

(** ECMAScript Number::toString(x) in radix 10.  NaN is "NaN", both zeros
    are "0", an infinity is "Infinity" with its sign.  For the other numbers
    [s], [k] and [n] are as in the standard: [s] has [k] digits, no zero at
    the end, and [x = s * 10^(n-k)]. *)
Definition Number_toString (x : JsNum) : JsStr :=
  match x with
  | NaN => js "NaN"
  | NegZero => js "0"
  | Infinity negative => (if negative then js "-" else []) ++ js "Infinity"
  | Num m sc =>
      if (m =? 0)%Z then js "0" else
      let D := N_to_digits (Z.abs_N m) in
      let s := rstrip0 D in
      let k := Z.of_nat (length s) in
      let n := (Z.of_nat (length D) - Z.of_N sc)%Z in
      (if (m <? 0)%Z then js "-" else []) ++
      (if (k <=? n)%Z && (n <=? 21)%Z then
         s ++ replicate (Z.to_nat (n - k)) 48
       else if (0 <? n)%Z && (n <=? 21)%Z then
         take (Z.to_nat n) s ++ js "." ++ drop (Z.to_nat n) s
       else if (-6 <? n)%Z && (n <=? 0)%Z then
         js "0." ++ replicate (Z.to_nat (- n)) 48 ++ s
       else
         let e := (n - 1)%Z in
         let es := (if (e <? 0)%Z then js "-" else js "+") ++ N_to_digits (Z.abs_N e) in
         match s with
         | [] => []
         | [d] => d :: js "e" ++ es
         | d :: r => d :: js "." ++ r ++ js "e" ++ es
         end)
  end.

(** NaN and the infinities are not finite. *)
Definition is_finite (x : JsNum) : bool :=
  match x with
  | NaN => false
  | Infinity _ => false
  | _ => true
  end.

Definition BigInt_toString (z : Z) : JsStr :=
  (if (z <? 0)%Z then js "-" else []) ++ N_to_digits (Z.abs_N z).

(** [join sep l] is [Array.prototype.join] on strings. *)
Fixpoint join (sep : JsStr) (l : list JsStr) : JsStr :=
  match l with
  | [] => []
  | [x] => x
  | x :: t => x ++ sep ++ join sep t
  end.

(** ECMAScript ToString on the values of the model.  An array is converted by
    [Array.prototype.toString], which joins its elements with commas and
    prints [undefined] and [null] elements as nothing; an ordinary object by
    [Object.prototype.toString], the method it inherits.  (An object with an
    own property named toString does not reach that method: such objects are
    outside the model.) *)
Fixpoint ToString (v : JsValue) : JsStr :=
  match v with
  | JsUndefined => js "undefined"
  | JsNull => js "null"
  | JsBool true => js "true"
  | JsBool false => js "false"
  | JsNumber x => Number_toString x
  | JsBigInt z => BigInt_toString z
  | JsString s => s
  | JsArray elems =>
      join (js ",")
        ((fix each (l : list JsValue) : list JsStr :=
            match l with
            | [] => []
            | JsUndefined :: t => [] :: each t
            | JsNull :: t => [] :: each t
            | x :: t => ToString x :: each t
            end) elems)
  | JsObject _ => js "[object Object]"
  end.

(** ** [JSON.stringify] *)

Definition hex_digit (n : N) : N := if n <? 10 then 48 + n else 87 + n.

(** The escape [\uXXXX] of a code unit, in lower-case hexadecimal. *)
Definition unicode_escape (c : N) : JsStr :=
  [92; 117; hex_digit (c / 4096 mod 16); hex_digit (c / 256 mod 16);
   hex_digit (c / 16 mod 16); hex_digit (c mod 16)].

Definition is_high_surrogate (c : N) : bool := (55296 <=? c) && (c <=? 56319).
Definition is_low_surrogate (c : N) : bool := (56320 <=? c) && (c <=? 57343).

(** One code unit that is not a surrogate, as QuoteJSONString writes it. *)
Definition quote_unit (c : N) : JsStr :=
  if c =? 8 then [92; 98]
  else if c =? 9 then [92; 116]
  else if c =? 10 then [92; 110]
  else if c =? 12 then [92; 102]
  else if c =? 13 then [92; 114]
  else if c =? 34 then [92; 34]
  else if c =? 92 then [92; 92]
  else if c <? 32 then unicode_escape c
  else [c].

(** QuoteJSONString walks the code points of the string: a surrogate pair is
    written as it is, a surrogate on its own is escaped. *)
Fixpoint quote_units (s : JsStr) : JsStr :=
  match s with
  | [] => []
  | c :: t =>
      if is_high_surrogate c then
        match t with
        | c2 :: t' =>
            if is_low_surrogate c2 then c :: c2 :: quote_units t'
            else unicode_escape c ++ quote_units t
        | [] => unicode_escape c
        end
      else if is_low_surrogate c then unicode_escape c ++ quote_units t
      else quote_unit c ++ quote_units t
  end.

Definition QuoteJSONString (s : JsStr) : JsStr := 34 :: quote_units s ++ [34].

(** Runs [f] on the elements from left to right; the first error stops it. *)
Definition cmapM {A B} (f : A -> Completion B) : list A -> Completion (list B) :=
  fix go (l : list A) : Completion (list B) :=
    match l with
    | [] => Normal []
    | x :: t => do y <- f x; do ys <- go t; Normal (y :: ys)
    end.

Definition BigInt_not_serializable : JsError :=
  TypeError "Do not know how to serialize a BigInt".

(** SerializeJSONProperty without replacer and without indentation: [None]
    stands for the result [undefined].  A number that is not finite is
    written [null].  In an array [undefined] is written [null]; in an object
    a property whose value gives [undefined] is left out.  On the values of
    the model the only error is the one for a BigInt; the errors for a
    structure that contains itself and for a nesting deeper than the engine
    follows are raised on values that the model does not have. *)
Fixpoint SerializeJSONProperty (v : JsValue) : Completion (option JsStr) :=
  match v with
  | JsUndefined => Normal None
  | JsNull => Normal (Some (js "null"))
  | JsBool true => Normal (Some (js "true"))
  | JsBool false => Normal (Some (js "false"))
  | JsNumber x =>
      Normal (Some (if is_finite x then Number_toString x else js "null"))
  | JsBigInt _ => Throw BigInt_not_serializable
  | JsString s => Normal (Some (QuoteJSONString s))
  | JsArray elems =>
      do parts <- cmapM (fun x => do r <- SerializeJSONProperty x;
                                  Normal (default (js "null") r)) elems;
      Normal (Some (js "[" ++ join (js ",") parts ++ js "]"))
  | JsObject props =>
      do parts <- cmapM (fun kv => do r <- SerializeJSONProperty (snd kv);
                                   Normal (option_map (fun sv => QuoteJSONString (fst kv) ++ js ":" ++ sv) r))
                        props;
      Normal (Some (js "{" ++ join (js ",") (omap id parts) ++ js "}"))
  end.

(** [JSON.stringify(value)]: a string, or [undefined]. *)
Definition JSON_stringify (value : JsValue) : Completion JsValue :=
  do r <- SerializeJSONProperty value;
  Normal (match r with Some s => JsString s | None => JsUndefined end).

(** ** [JSON.parse] *)

(** Result of a parser: a value and the rest of the input, a syntax error, or
    the recursion budget ran out. *)
Inductive presult (A : Type) : Type :=
| POk (a : A) (rest : JsStr)
| PErr
| PFuel.
Arguments POk {A} a rest.
Arguments PErr {A}.
Arguments PFuel {A}.

Definition is_ws (c : N) : bool :=
  (c =? 32) || (c =? 9) || (c =? 10) || (c =? 13).

Fixpoint skip_ws (s : JsStr) : JsStr :=
  match s with
  | c :: t => if is_ws c then skip_ws t else s
  | [] => []
  end.

Definition hex_val (c : N) : option N :=
  if is_digit c then Some (c - 48)
  else if (97 <=? c) && (c <=? 102) then Some (c - 87)
  else if (65 <=? c) && (c <=? 70) then Some (c - 55)
  else None.

Definition hex4 (a b c d : N) : option N :=
  match hex_val a, hex_val b, hex_val c, hex_val d with
  | Some x, Some y, Some z, Some w => Some (x * 4096 + y * 256 + z * 16 + w)
  | _, _, _, _ => None
  end.

(** The character after a backslash, other than [u]. *)
Definition unescape (e : N) : option N :=
  if e =? 34 then Some 34
  else if e =? 92 then Some 92
  else if e =? 47 then Some 47
  else if e =? 98 then Some 8
  else if e =? 102 then Some 12
  else if e =? 110 then Some 10
  else if e =? 114 then Some 13
  else if e =? 116 then Some 9
  else None.

(** The characters of a string literal after its opening quote, up to and
    including the closing quote. *)
Fixpoint parse_string_chars (s : JsStr) : option (JsStr * JsStr) :=
  match s with
  | [] => None
  | c :: t =>
      if c =? 34 then Some ([], t)
      else if c =? 92 then
        match t with
        | [] => None
        | e :: t' =>
            if e =? 117 then
              match t' with
              | h1 :: h2 :: h3 :: h4 :: t'' =>
                  match hex4 h1 h2 h3 h4 with
                  | Some u =>
                      match parse_string_chars t'' with
                      | Some (r, rest) => Some (u :: r, rest)
                      | None => None
                      end
                  | None => None
                  end
              | _ => None
              end
            else
              match unescape e with
              | Some u =>
                  match parse_string_chars t' with
                  | Some (r, rest) => Some (u :: r, rest)
                  | None => None
                  end
              | None => None
              end
        end
      else if c <? 32 then None
      else
        match parse_string_chars t with
        | Some (r, rest) => Some (c :: r, rest)
        | None => None
        end
  end.

(** The number written with the digits [ds] (the integer and fraction digits
    of a literal, in order) times [10^e]; a zero with a minus sign is the
    negative zero. *)
Definition of_decimal (neg : bool) (ds : JsStr) (e : Z) : JsNum :=
  let sig := rstrip0 ds in
  let M := Z.of_N (digits_to_N sig) in
  let E := (e + Z.of_nat (length ds) - Z.of_nat (length sig))%Z in
  if (M =? 0)%Z then (if neg then NegZero else Num 0 0)
  else
    let M' := if neg then (- M)%Z else M in
    if (0 <=? E)%Z then Num (M' * 10 ^ E)%Z 0 else Num M' (Z.to_N (- E)).

(** The optional fraction of a number: a point and at least one digit. *)
Definition parse_fraction (s : JsStr) : option (JsStr * JsStr) :=
  match s with
  | d :: t =>
      if d =? 46 then
        let (fp, rest) := span_digits t in
        match fp with
        | [] => None
        | _ :: _ => Some (fp, rest)
        end
      else Some ([], s)
  | [] => Some ([], s)
  end.

(** The optional exponent of a number: e or E, an optional sign and at least
    one digit. *)
Definition parse_exponent (s : JsStr) : option (Z * JsStr) :=
  match s with
  | x :: t =>
      if (x =? 101) || (x =? 69) then
        let (eneg, s') := match t with
                          | g :: t' =>
                              if g =? 45 then (true, t')
                              else if g =? 43 then (false, t')
                              else (false, t)
                          | [] => (false, t)
                          end in
        let (ep, rest) := span_digits s' in
        match ep with
        | [] => None
        | _ :: _ =>
            let X := Z.of_N (digits_to_N ep) in
            Some (if eneg then (- X)%Z else X, rest)
        end
      else Some (0%Z, s)
  | [] => Some (0%Z, s)
  end.

(** A JSON number after its sign: the integer part, which is a single 0 or
    starts with a digit from 1 to 9, then the optional fraction and
    exponent. *)
Definition parse_unsigned (neg : bool) (s : JsStr) : option (JsNum * JsStr) :=
  match s with
  | [] => None
  | c :: t =>
      if negb (is_digit c) then None else
      let (ip, s2) := if c =? 48 then ([c], t) else span_digits s in
      match parse_fraction s2 with
      | None => None
      | Some (fp, s3) =>
          match parse_exponent s3 with
          | None => None
          | Some (X, rest) =>
              Some (of_decimal neg (ip ++ fp) (X - Z.of_nat (length fp)), rest)
          end
      end
  end.

(** A JSON number, with its optional minus sign. *)
Definition parse_number (s : JsStr) : option (JsNum * JsStr) :=
  match s with
  | c :: t => if c =? 45 then parse_unsigned true t else parse_unsigned false s
  | [] => None
  end.

(** A property key is an array index when it is the decimal form of an
    integer below 2^32 - 1. *)
Definition array_index (k : JsStr) : option N :=
  let n := digits_to_N k in
  if decide (N_to_digits n = k) then
    if n <=? 4294967294 then Some n else None
  else None.

(** Where a new property with array index [i] goes: before the first
    property that is not an array index or has a larger one. *)
Fixpoint insert_index (i : N) (k : JsStr) (v : JsValue)
    (props : list (JsStr * JsValue)) : list (JsStr * JsValue) :=
  match props with
  | [] => [(k, v)]
  | (k', v') :: t =>
      match array_index k' with
      | Some j => if j <? i then (k', v') :: insert_index i k v t
                  else (k, v) :: props
      | None => (k, v) :: props
      end
  end.

Fixpoint replace_value (k : JsStr) (v : JsValue)
    (props : list (JsStr * JsValue)) : option (list (JsStr * JsValue)) :=
  match props with
  | [] => None
  | (k', v') :: t =>
      if decide (k' = k) then Some ((k', v) :: t)
      else match replace_value k v t with
           | Some t' => Some ((k', v') :: t')
           | None => None
           end
  end.

(** CreateDataProperty on an ordinary object: an existing property keeps its
    place and takes the new value; a new one is placed as the engine
    enumerates keys, array indices first in ascending order and then the
    other keys in order of creation. *)
Definition CreateDataProperty (props : list (JsStr * JsValue)) (k : JsStr) (v : JsValue)
  : list (JsStr * JsValue) :=
  match replace_value k v props with
  | Some props' => props'
  | None =>
      match array_index k with
      | Some i => insert_index i k v props
      | None => props ++ [(k, v)]
      end
  end.

Definition object_of_entries (entries : list (JsStr * JsValue)) : list (JsStr * JsValue) :=
  fold_left (fun o kv => CreateDataProperty o (fst kv) (snd kv)) entries [].

Definition presult_map {A B} (f : A -> B) (r : presult A) : presult B :=
  match r with
  | POk a rest => POk (f a) rest
  | PErr => PErr
  | PFuel => PFuel
  end.

(** Recursive descent over the JSON grammar.  [fuel] bounds the depth of the
    recursion; [JSON_parse_text] gives enough of it for any input. *)
Fixpoint parse_value (fuel : nat) (s : JsStr) : presult JsValue :=
  match fuel with
  | O => PFuel
  | S f =>
      match skip_ws s with
      | [] => PErr
      | c :: t =>
          if c =? 91 then
            match skip_ws t with
            | [] => PErr
            | c' :: t' =>
                if c' =? 93 then POk (JsArray []) t'
                else presult_map JsArray (parse_elements f t)
            end
          else if c =? 123 then
            match skip_ws t with
            | [] => PErr
            | c' :: t' =>
                if c' =? 125 then POk (JsObject []) t'
                else presult_map (fun es => JsObject (object_of_entries es))
                                 (parse_members f t)
            end
          else if c =? 34 then
            match parse_string_chars t with
            | Some (str, rest) => POk (JsString str) rest
            | None => PErr
            end
          else if (c =? 45) || is_digit c then
            match parse_number (c :: t) with
            | Some (x, rest) => POk (JsNumber x) rest
            | None => PErr
            end
          else
            match strip_prefix (js "null") (c :: t) with
            | Some rest => POk JsNull rest
            | None =>
                match strip_prefix (js "true") (c :: t) with
                | Some rest => POk (JsBool true) rest
                | None =>
                    match strip_prefix (js "false") (c :: t) with
                    | Some rest => POk (JsBool false) rest
                    | None => PErr
                    end
                end
            end
      end
  end
with parse_elements (fuel : nat) (s : JsStr) : presult (list JsValue) :=
  match fuel with
  | O => PFuel
  | S f =>
      match parse_value f s with
      | POk v r =>
          match skip_ws r with
          | [] => PErr
          | c :: r' =>
              if c =? 44 then presult_map (cons v) (parse_elements f r')
              else if c =? 93 then POk [v] r'
              else PErr
          end
      | PErr => PErr
      | PFuel => PFuel
      end
  end
with parse_members (fuel : nat) (s : JsStr) : presult (list (JsStr * JsValue)) :=
  match fuel with
  | O => PFuel
  | S f =>
      match skip_ws s with
      | [] => PErr
      | q :: t =>
          if negb (q =? 34) then PErr else
          match parse_string_chars t with
          | None => PErr
          | Some (k, r) =>
              match skip_ws r with
              | [] => PErr
              | c :: r1 =>
                  if negb (c =? 58) then PErr else
                  match parse_value f r1 with
                  | POk v r2 =>
                      match skip_ws r2 with
                      | [] => PErr
                      | c' :: r3 =>
                          if c' =? 44 then presult_map (cons (k, v)) (parse_members f r3)
                          else if c' =? 125 then POk [(k, v)] r3
                          else PErr
                      end
                  | PErr => PErr
                  | PFuel => PFuel
                  end
              end
          end
      end
  end.

Definition Unexpected_token : JsError := SyntaxError "Unexpected token in JSON".

(** Parses a whole JSON text: one value, with white space around it. *)
Definition JSON_parse_text (s : JsStr) : Completion JsValue :=
  match parse_value (2 * length s + 1) s with
  | POk v rest =>
      match skip_ws rest with
      | [] => Normal v
      | _ :: _ => Throw Unexpected_token
      end
  | PErr => Throw Unexpected_token
  | PFuel => Throw Unexpected_token
  end.

(** [JSON.parse(text)]: the argument is converted with ToString first. *)
Definition JSON_parse (text : JsValue) : Completion JsValue :=
  JSON_parse_text (ToString text).

(** ** Effects: host state and exceptions *)

(** A computation that reads and writes a state of type [St] and ends with a
    value or a thrown error. *)
Definition Eff (St A : Type) : Type := St -> Completion A * St.

Definition eff_bind {St A B} (c : Eff St A) (k : A -> Eff St B) : Eff St B :=
  fun st =>
    match c st with
    | (Normal a, st') => k a st'
    | (Throw e, st') => (Throw e, st')
    end.

(** Pure code inside an effectful block. *)
Definition pure {St A} (c : Completion A) : Eff St A := fun st => (c, st).

(** [try { body } catch (e) { handler e }]. *)
Definition eff_try {St A} (body : Eff St A) (handler : JsError -> Eff St A) : Eff St A :=
  fun st =>
    match body st with
    | (Normal a, st') => (Normal a, st')
    | (Throw e, st') => handler e st'
    end.

Notation "'run' x <- c ; k" := (eff_bind c (fun x => k))
  (at level 10, x name, c at level 100, k at level 200) : js_scope.

(** ** Promises

    The executor passed to [new Promise] runs at once, inside the
    constructor.  The promise settles at the first call of [resolve] or
    [reject]; later calls do nothing.  An error thrown by the executor rejects
    the promise if it is still pending.  No value of the model has a callable
    [then], so [resolve(v)] fulfills the promise with [v]. *)

Inductive PromiseState : Type :=
| Pending
| Fulfilled (value : JsValue)
| Rejected (reason : JsError).

Definition settle (new p : PromiseState) : PromiseState :=
  match p with
  | Pending => new
  | _ => p
  end.

Section Promise.
Context {S : Type}.

(** Code of an executor: it sees the host state and the promise. *)
Definition Exec (A : Type) : Type := Eff (S * PromiseState) A.

Definition resolve_function (value : JsValue) : Exec unit :=
  fun st => (Normal tt, (fst st, settle (Fulfilled value) (snd st))).

Definition reject_function (reason : JsError) : Exec unit :=
  fun st => (Normal tt, (fst st, settle (Rejected reason) (snd st))).

(** A call into the host from an executor. *)
Definition host {A} (c : Eff S A) : Exec A :=
  fun st => let (r, σ') := c (fst st) in (r, (σ', snd st)).

(** [new Promise(executor)], started in host state [σ]: the promise as it is
    when the constructor returns, and the host state then. *)
Definition new_Promise
    (executor : (JsValue -> Exec unit) -> (JsError -> Exec unit) -> Exec unit)
    (σ : S) : PromiseState * S :=
  match executor resolve_function reject_function (σ, Pending) with
  | (Normal _, st) => (snd st, fst st)
  | (Throw e, st) => (settle (Rejected e) (snd st), fst st)
  end.
End Promise.

(** ** The host store: the Web Storage interface *)

Module Storage.
(** The four methods of a [Storage] object that the adapter calls, as the
    host implements them on a state of type [S].  [getItem] answers [None]
    for the value [null], returned when the key has no entry.  A call may
    throw: this also covers the evaluation of [window.localStorage] that
    precedes it. *)
Class Interface (S : Type) : Type := {
  getItem : JsStr -> Eff S (option JsStr);
  setItem : JsStr -> JsStr -> Eff S unit;
  removeItem : JsStr -> Eff S unit;
  clear : Eff S unit
}.
End Storage.

(** The state of a browser's local storage area: whether scripts may reach it,
    how many code units it may hold, and its entries. *)
Record BrowserStore : Type := {
  bs_available : bool;
  bs_quota : N;
  bs_items : gmap (list N) (list N)
}.

Definition storage_size (items : gmap (list N) (list N)) : N :=
  map_fold (fun k v acc => acc + N.of_nat (length k) + N.of_nat (length v)) 0 items.

Definition SecurityError : JsError :=
  DOMException "SecurityError" "The operation is insecure.".

Definition QuotaExceededError : JsError :=
  DOMException "QuotaExceededError" "The quota has been exceeded.".

Definition with_items (σ : BrowserStore) (items : gmap (list N) (list N)) : BrowserStore :=
  {| bs_available := bs_available σ; bs_quota := bs_quota σ; bs_items := items |}.

Definition browser_getItem (key : JsStr) : Eff BrowserStore (option JsStr) :=
  fun σ =>
    if bs_available σ then (Normal (bs_items σ !! key), σ)
    else (Throw SecurityError, σ).

Definition browser_setItem (key value : JsStr) : Eff BrowserStore unit :=
  fun σ =>
    if bs_available σ then
      let items' := <[key := value]> (bs_items σ) in
      if storage_size items' <=? bs_quota σ then (Normal tt, with_items σ items')
      else (Throw QuotaExceededError, σ)
    else (Throw SecurityError, σ).

Definition browser_removeItem (key : JsStr) : Eff BrowserStore unit :=
  fun σ =>
    if bs_available σ then (Normal tt, with_items σ (delete key (bs_items σ)))
    else (Throw SecurityError, σ).

Definition browser_clear : Eff BrowserStore unit :=
  fun σ =>
    if bs_available σ then (Normal tt, with_items σ ∅)
    else (Throw SecurityError, σ).

#[export] Instance browser_storage : Storage.Interface BrowserStore := {|
  Storage.getItem := browser_getItem;
  Storage.setItem := browser_setItem;
  Storage.removeItem := browser_removeItem;
  Storage.clear := browser_clear
|}.

(** The result of [getItem] as a JavaScript value: a string, or [null] when
    the key has no entry. *)
Definition item_value (r : option JsStr) : JsValue :=
  match r with
  | Some s => JsString s
  | None => JsNull
  end.

(** ** The class [LocalStorage] *)

Module LocalStorage.
Section LocalStorage.
Context {S : Type} `{!Storage.Interface S}.

(** The base class [StorageEngine] is imported from './storage'; its
    constructor is called without arguments. *)
Variable StorageEngine : Type.
Variable StorageEngine_constructor : StorageEngine.

(** An instance: the class declares no field of its own. *)
Record t : Type := { super : StorageEngine }.

(** [window.localStorage.getItem(key)] as a JavaScript value. *)
Definition window_localStorage_getItem (key : JsStr) : Eff S JsValue :=
  run r <- Storage.getItem key;
  pure (Normal (item_value r)).

(** [window.localStorage.setItem(key, value)]: the binding converts the
    value to a string. *)
Definition window_localStorage_setItem (key : JsStr) (value : JsValue) : Eff S unit :=
  Storage.setItem key (ToString value).

Definition window_localStorage_removeItem (key : JsStr) : Eff S unit :=
  Storage.removeItem key.

Definition window_localStorage_clear : Eff S unit := Storage.clear.

(** [constructor(options = {}) { super(); }] *)
Definition constructor (options : JsValue) : t :=
  let options := match options with JsUndefined => JsObject [] | _ => options end in
  {| super := StorageEngine_constructor |}.

Definition testParse (this : t) (value : JsValue) : Completion JsValue :=
  try_catch
    (do parsedValue <- JSON_parse value;
     Normal parsedValue)
    (fun e => Normal value).

Definition testForArray (this : t) (value : JsValue) : Completion JsValue :=
  if Array_isArray value then JSON_stringify value
  else Normal value.

Definition get (this : t) (key : JsStr) : S -> PromiseState * S :=
  new_Promise (fun resolve reject =>
    eff_try
      (run raw <- host (window_localStorage_getItem key);
       run value <- pure (testParse this raw);
       resolve value)
      (fun e => reject e)).

Definition set (this : t) (key : JsStr) (value : JsValue) : S -> PromiseState * S :=
  new_Promise (fun resolve reject =>
    run checkedValue <- pure (testForArray this value);
    eff_try
      (run _ <- host (window_localStorage_setItem key checkedValue);
       resolve JsUndefined)
      (fun e => reject e)).

Definition remove (this : t) (key : JsStr) : S -> PromiseState * S :=
  new_Promise (fun resolve reject =>
    eff_try
      (run _ <- host (window_localStorage_removeItem key);
       resolve JsUndefined)
      (fun e => reject e)).

Definition clear (this : t) : S -> PromiseState * S :=
  new_Promise (fun resolve reject =>
    eff_try
      (run _ <- host window_localStorage_clear;
       resolve JsUndefined)
      (fun e => reject e)).
End LocalStorage.

Arguments super {StorageEngine} _.
Arguments constructor {StorageEngine} StorageEngine_constructor options.
Arguments testParse {StorageEngine} this value.
Arguments testForArray {StorageEngine} this value.
Arguments get {S _ StorageEngine} this key _.
Arguments set {S _ StorageEngine} this key value _.
Arguments remove {S _ StorageEngine} this key _.
Arguments clear {S _ StorageEngine} this _.
End LocalStorage.

(** ** Values that JSON represents *)

(** A number that JSON represents: finite and not the negative zero.  It is
    held in lowest terms, with no zero at the end of the fraction. *)
Definition canonical_num (x : JsNum) : bool :=
  match x with
  | Num m sc => (sc =? 0) || negb (m mod 10 =? 0)%Z
  | _ => false
  end.

(** [appendable seen k]: a new property [k] of an object whose keys are
    [seen] is enumerated last. *)
Definition appendable (seen : list JsStr) (k : JsStr) : bool :=
  negb (bool_decide (k ∈ seen)) &&
  match array_index k with
  | None => true
  | Some i =>
      forallb (fun k' => match array_index k' with
                         | Some j => j <? i
                         | None => false
                         end) seen
  end.

Fixpoint keys_in_order_from (seen keys : list JsStr) : bool :=
  match keys with
  | [] => true
  | k :: t => appendable seen k && keys_in_order_from (seen ++ [k]) t
  end.

(** The keys are distinct and in the order in which the engine enumerates
    them. *)
Definition keys_in_order (keys : list JsStr) : bool := keys_in_order_from [] keys.

(** The values that a JSON text denotes: null, booleans, numbers, strings, and
    arrays and ordinary objects of such values. *)
Fixpoint JSON_serializable (v : JsValue) : bool :=
  match v with
  | JsUndefined => false
  | JsNull => true
  | JsBool _ => true
  | JsNumber x => canonical_num x
  | JsBigInt _ => false
  | JsString _ => true
  | JsArray elems => forallb JSON_serializable elems
  | JsObject props =>
      keys_in_order (map fst props) &&
      forallb (fun kv => JSON_serializable (snd kv)) props
  end.

(** Deep equality.  Values of the model are trees and carry no identity, so
    two values are deep-equal when they are the same tree: same type, same
    primitive value, same elements in the same positions, same properties. *)
Definition deep_equal (a b : JsValue) : Prop := a = b.

(** What may follow a value inside a JSON text printed by [JSON.stringify]:
    the end of the text, a comma, or a closing bracket or brace. *)
Definition value_end (rest : JsStr) : bool :=
  match rest with
  | [] => true
  | c :: _ => (c =? 44) || (c =? 93) || (c =? 125)
  end.

(** A bound on the recursion depth [parse_value] needs to read a value. *)
Fixpoint vsize (v : JsValue) : nat :=
  match v with
  | JsArray elems => S (list_sum (map (fun x => S (vsize x)) elems))
  | JsObject props => S (list_sum (map (fun kv => S (vsize (snd kv))) props))
  | _ => 1
  end.

(** ** Auxiliary definitions of the proofs *)

Definition starts_with_digit (s : JsStr) : bool :=
  match s with
  | c :: _ => is_digit c
  | [] => false
  end.

(** What may follow a number literal without being read as part of it. *)
Definition number_end (rest : JsStr) : bool :=
  match rest with
  | [] => true
  | c :: _ => negb (is_digit c || (c =? 46) || (c =? 101) || (c =? 69))
  end.

(** The fraction and the exponent of a literal, as they are written. *)
Definition frac_str (F : JsStr) : JsStr :=
  match F with
  | [] => []
  | _ :: _ => 46 :: F
  end.

Definition exp_str (ex : option Z) : JsStr :=
  match ex with
  | None => []
  | Some e => 101 :: (if (e <? 0)%Z then js "-" else js "+") ++ N_to_digits (Z.abs_N e)
  end.

(** The integer part of a literal: a single 0, or digits that do not start
    with 0. *)
Definition int_part (I : JsStr) : Prop :=
  I = [48] \/ (Forall (fun c => is_digit c = true) I /\ I <> [] /\ head I <> Some 48).

(** What [parse_string_chars] does after it has read one more code unit. *)
Definition read_unit (c : N) (r : option (JsStr * JsStr)) : option (JsStr * JsStr) :=
  match r with
  | Some (s, rest) => Some (c :: s, rest)
  | None => None
  end.

(** Induction on values, with the hypothesis for every element of an array
    and every property value of an object. *)
Fixpoint JsValue_nested_ind (P : JsValue -> Prop)
    (Hundef : P JsUndefined) (Hnull : P JsNull)
    (Hbool : forall b, P (JsBool b)) (Hnum : forall x, P (JsNumber x))
    (Hbig : forall z, P (JsBigInt z)) (Hstr : forall s, P (JsString s))
    (Harr : forall elems, Forall P elems -> P (JsArray elems))
    (Hobj : forall props, Forall (fun kv => P (snd kv)) props -> P (JsObject props))
    (v : JsValue) {struct v} : P v :=
  let rec := JsValue_nested_ind P Hundef Hnull Hbool Hnum Hbig Hstr Harr Hobj in
  match v with
  | JsUndefined => Hundef
  | JsNull => Hnull
  | JsBool b => Hbool b
  | JsNumber x => Hnum x
  | JsBigInt z => Hbig z
  | JsString s => Hstr s
  | JsArray elems =>
      Harr elems
        ((fix go (l : list JsValue) : Forall P l :=
            match l with
            | [] => List.Forall_nil P
            | x :: t => List.Forall_cons P x t (rec x) (go t)
            end) elems)
  | JsObject props =>
      Hobj props
        ((fix go (l : list (JsStr * JsValue)) : Forall (fun kv => P (snd kv)) l :=
            match l with
            | [] => List.Forall_nil _
            | kv :: t => List.Forall_cons (fun kv => P (snd kv)) kv t (rec (snd kv)) (go t)
            end) props)
  end.

(** The first character of a printed value. *)
Definition value_start (c : N) : bool :=
  (c =? 110) || (c =? 116) || (c =? 102) || (c =? 34) || (c =? 91) || (c =? 123)
  || (c =? 45) || is_digit c.

(** [s] is a text of [v]: it starts as a value does, and [parse_value] reads
    [v] from it and stops where it ends. *)
Definition reads_back (v : JsValue) (s : JsStr) : Prop :=
  (exists c t, s = c :: t /\ value_start c = true)
  /\ forall fuel rest,
       (vsize v <= fuel)%nat -> value_end rest = true ->
       parse_value fuel (s ++ rest) = POk v rest.

(** [v] has a JSON text, and the text is read back as [v]. *)
Definition serializes (v : JsValue) : Prop :=
  exists s, SerializeJSONProperty v = Normal (Some s) /\ reads_back v s.

(** The text of an array element and of an object member, as
    [SerializeJSONProperty] computes them. *)
Definition serialize_element (x : JsValue) : Completion JsStr :=
  do r <- SerializeJSONProperty x; Normal (default (js "null") r).

Definition serialize_member (kv : JsStr * JsValue) : Completion (option JsStr) :=
  do r <- SerializeJSONProperty (snd kv);
  Normal (option_map (fun sv => QuoteJSONString (fst kv) ++ js ":" ++ sv) r).

(** The JSON text of an array. *)
Definition SerializeJSONArray (elems : list JsValue) : Completion JsStr :=
  do parts <- cmapM serialize_element elems;
  Normal (js "[" ++ join (js ",") parts ++ js "]").

(** What [get] hands to [resolve] for a raw item: the decoded value when the
    item parses, the item itself otherwise. *)
Definition decode (raw : JsValue) : JsValue :=
  match JSON_parse raw with
  | Normal parsedValue => parsedValue
  | Throw _ => raw
  end.

(** The statement that [testForArray] returns a string for an array and the
    argument itself for any other value, at one input. *)
Definition testForArray_returns_text {StorageEngine : Type}
    (this : LocalStorage.t StorageEngine) (value : JsValue) : Prop :=
  match value with
  | JsArray _ => exists text, LocalStorage.testForArray this value = Normal (JsString text)
  | _ => LocalStorage.testForArray this value = Normal value
  end.

(** The statement that the promise of [set] rejects exactly when the host
    call [setItem] raises, and with the error raised, at one input. *)
Definition set_rejects_iff_setItem_raises {S : Type} `{!Storage.Interface S}
    {StorageEngine : Type} (this : LocalStorage.t StorageEngine)
    (key : JsStr) (value : JsValue) (σ : S) : Prop :=
  forall e,
    fst (LocalStorage.set this key value σ) = Rejected e
    <-> exists checkedValue,
          LocalStorage.testForArray this value = Normal checkedValue
          /\ fst (LocalStorage.window_localStorage_setItem key checkedValue σ) = Throw e.

(** An instance of the class, an empty store with room for 64 code units, and
    a store that is nearly full, for the examples. *)
Definition this0 : LocalStorage.t unit := LocalStorage.constructor tt JsUndefined.

Definition store0 : BrowserStore :=
  {| bs_available := true; bs_quota := 64; bs_items := ∅ |}.

Definition store_full : BrowserStore :=
  {| bs_available := true; bs_quota := 8; bs_items := {[ js "k" := js "old" ]} |}.

(** ** Auxiliary definitions for the behaviour of [set] followed by [get] *)

(** A number as the engine holds it: a finite one is in lowest terms. *)
Definition wf_num (x : JsNum) : bool :=
  match x with
  | Num _ _ => canonical_num x
  | _ => true
  end.

(** Null, booleans and numbers. *)
Definition json_primitive (v : JsValue) : bool :=
  match v with
  | JsNull => true
  | JsBool _ => true
  | JsNumber x => wf_num x
  | _ => false
  end.

(** What is read back of such a value: NaN and the infinities come back as
    the strings that name them, the negative zero as zero, and the others as
    they are. *)
Definition primitive_read_back (v : JsValue) : JsValue :=
  match v with
  | JsNumber NaN => JsString (js "NaN")
  | JsNumber (Infinity false) => JsString (js "Infinity")
  | JsNumber (Infinity true) => JsString (js "-Infinity")
  | JsNumber NegZero => JsInt 0
  | _ => v
  end.

(** What [JSON.stringify] and [JSON.parse] leave of a number: a number that
    is not finite has become [null], the negative zero has become zero. *)
Definition number_image (x : JsNum) : JsValue :=
  match x with
  | Num _ _ => JsNumber x
  | NegZero => JsInt 0
  | NaN => JsNull
  | Infinity _ => JsNull
  end.

(** A BigInt occurs in the value, at any depth. *)
Fixpoint has_bigint (v : JsValue) : bool :=
  match v with
  | JsBigInt _ => true
  | JsArray elems => existsb has_bigint elems
  | JsObject props => existsb (fun kv => has_bigint (snd kv)) props
  | _ => false
  end.

(** The values of the model that [JSON.stringify] accepts: no BigInt occurs
    in them.  (Finite numbers are in lowest terms and the keys of objects in
    enumeration order, as for every value that the engine holds.) *)
Fixpoint stringifiable (v : JsValue) : bool :=
  match v with
  | JsBigInt _ => false
  | JsNumber x => wf_num x
  | JsArray elems => forallb stringifiable elems
  | JsObject props =>
      keys_in_order (map fst props) &&
      forallb (fun kv => stringifiable (snd kv)) props
  | _ => true
  end.

(** What is left of a value after [JSON.stringify] and [JSON.parse]: an
    element [undefined] of an array has become [null], a property whose value
    is [undefined] is gone, a number that is not finite has become [null] and
    the negative zero has become zero. *)
Fixpoint JSON_image (v : JsValue) : JsValue :=
  match v with
  | JsNumber x => number_image x
  | JsArray elems =>
      JsArray (map (fun x => match x with
                             | JsUndefined => JsNull
                             | _ => JSON_image x
                             end) elems)
  | JsObject props =>
      JsObject
        ((fix each (l : list (JsStr * JsValue)) : list (JsStr * JsValue) :=
            match l with
            | [] => []
            | (k, JsUndefined) :: t => each t
            | (k, x) :: t => (k, JSON_image x) :: each t
            end) props)
  | _ => v
  end.

Definition element_image (x : JsValue) : JsValue :=
  match x with
  | JsUndefined => JsNull
  | _ => JSON_image x
  end.

Fixpoint members_image (props : list (JsStr * JsValue)) : list (JsStr * JsValue) :=
  match props with
  | [] => []
  | (k, JsUndefined) :: t => members_image t
  | (k, x) :: t => (k, JSON_image x) :: members_image t
  end.

(** * Properties *)

(** ** The host functions on some inputs *)

Example Number_toString_examples :
  Number_toString (Num 42 0) = js "42"
  /\ Number_toString (Num (-15) 1) = js "-1.5"
  /\ Number_toString (Num 123456 3) = js "123.456"
  /\ Number_toString (Num 1 6) = js "0.000001"
  /\ Number_toString (Num 1 7) = js "1e-7"
  /\ Number_toString (Num (10 ^ 20) 0) = js "100000000000000000000"
  /\ Number_toString (Num (10 ^ 21) 0) = js "1e+21"
  /\ Number_toString (Num (123 * 10 ^ 30) 0) = js "1.23e+32"
  /\ Number_toString NegZero = js "0"
  /\ Number_toString NaN = js "NaN"
  /\ Number_toString (Infinity true) = js "-Infinity".
Proof. repeat split; vm_compute; reflexivity. Qed.

Example ToString_examples :
  ToString JsUndefined = js "undefined"
  /\ ToString (JsInt 42) = js "42"
  /\ ToString (JsArray [JsInt 1; JsNull; JsArray [JsInt 2; JsInt 3]]) = js "1,,2,3"
  /\ ToString (JsObject [(js "a", JsInt 1)]) = js "[object Object]".
Proof. repeat split; vm_compute; reflexivity. Qed.

Example JSON_stringify_examples :
  JSON_stringify (JsArray [JsInt 1; JsInt 2; JsInt 3]) = Normal (JsString (js "[1,2,3]"))
  /\ JSON_stringify (JsArray [JsUndefined; JsString (js "a"); JsBool false])
     = Normal (JsString ([91] ++ js "null," ++ [34; 97; 34] ++ js ",false]"))
  /\ JSON_stringify (JsArray [JsString [10; 34; 92; 1; 55357]])
     = Normal (JsString ([91; 34] ++ js "\n\" ++ [34] ++ js "\\\u0001\ud83d" ++ [34; 93]))
  /\ JSON_stringify (JsObject [(js "a", JsUndefined); (js "b", JsArray [])])
     = Normal (JsString ([123; 34; 98; 34] ++ js ":[]}"))
  /\ JSON_stringify (JsArray [JsNumber NaN; JsNumber (Infinity false); JsNumber NegZero])
     = Normal (JsString (js "[null,null,0]"))
  /\ JSON_stringify JsUndefined = Normal JsUndefined
  /\ JSON_stringify (JsArray [JsInt 1; JsBigInt 2]) = Throw BigInt_not_serializable.
Proof. repeat split; vm_compute; reflexivity. Qed.

Example JSON_parse_examples :
  JSON_parse (JsString (js " [1, 2.50e1, 1e-7, 100e-1, true, null] "))
  = Normal (JsArray [JsInt 1; JsInt 25; JsNumber (Num 1 7); JsInt 10; JsBool true; JsNull])
  /\ JSON_parse (JsString ([123; 34; 98; 34] ++ js ":1," ++ [34; 50; 34] ++ js ":[]}"))
     = Normal (JsObject [(js "2", JsArray []); (js "b", JsInt 1)])
  /\ JSON_parse (JsString ([34] ++ js "a\u0041\n" ++ [34])) = Normal (JsString [97; 65; 10])
  /\ JSON_parse (JsString (js "[-0, -0.0e3, 0]"))
     = Normal (JsArray [JsNumber NegZero; JsNumber NegZero; JsInt 0])
  /\ JSON_parse (JsNumber NaN) = Throw Unexpected_token
  /\ JSON_parse (JsString (js "-Infinity")) = Throw Unexpected_token
  /\ JSON_parse JsNull = Normal JsNull
  /\ JSON_parse (JsString []) = Throw Unexpected_token
  /\ JSON_parse (JsString (js "hello")) = Throw Unexpected_token
  /\ JSON_parse (JsString (js "01")) = Throw Unexpected_token
  /\ JSON_parse (JsString (js "[1,]")) = Throw Unexpected_token
  /\ JSON_parse (JsString (js "undefined")) = Throw Unexpected_token.
Proof. repeat split; vm_compute; reflexivity. Qed.

(** [lia] with division and remainder by constants. *)
Ltac Zify.zify_post_hook ::= Z.to_euclidean_division_equations.

(** ** Decimal digits *)

Lemma digits_to_N_acc_app (l1 l2 : JsStr) (a : N) :
  digits_to_N_acc (l1 ++ l2) a = digits_to_N_acc l2 (digits_to_N_acc l1 a).
Proof. unfold digits_to_N_acc. apply fold_left_app. Qed.

Lemma digits_to_N_acc_pow (l : JsStr) (a : N) :
  digits_to_N_acc l a = a * 10 ^ N.of_nat (length l) + digits_to_N l.
Proof.
  unfold digits_to_N, digits_to_N_acc. revert a.
  induction l as [|c l IH]; intros a.
  - simpl. lia.
  - cbn [fold_left length].
    rewrite (IH (a * 10 + digit_val c)), (IH (0 * 10 + digit_val c)).
    rewrite Nat2N.inj_succ, N.pow_succ_r'. lia.
Qed.

Lemma digits_to_N_app (a b : JsStr) :
  digits_to_N (a ++ b) = digits_to_N a * 10 ^ N.of_nat (length b) + digits_to_N b.
Proof.
  unfold digits_to_N at 1. rewrite digits_to_N_acc_app.
  rewrite digits_to_N_acc_pow. reflexivity.
Qed.

Lemma digits_to_N_zeros (t : nat) : digits_to_N (replicate t 48) = 0.
Proof.
  induction t as [|t IH]; [reflexivity|].
  change (replicate (S t) 48) with ([48] ++ replicate t 48).
  rewrite digits_to_N_app, IH. reflexivity.
Qed.

Lemma is_digit_spec (c : N) : is_digit c = true <-> 48 <= c <= 57.
Proof. unfold is_digit. rewrite andb_true_iff, !N.leb_le. tauto. Qed.

Lemma is_digit_of_mod (n : N) : is_digit (48 + n mod 10) = true.
Proof.
  apply is_digit_spec. pose proof (N.mod_upper_bound n 10 ltac:(lia)). lia.
Qed.

(** What [digits_fuel] computes when the fuel covers the binary length. *)
Lemma digits_fuel_spec (f : nat) : forall (n : N) (acc : JsStr),
  f <> O ->
  n < 2 ^ N.of_nat f ->
  exists d, digits_fuel f n acc = d ++ acc
         /\ Forall (fun c => is_digit c = true) d
         /\ digits_to_N d = n
         /\ (n <> 0 -> head d <> Some 48)
         /\ last d = Some (48 + n mod 10).
Proof.
  induction f as [|f IH]; intros n acc Hf Hn.
  - contradiction.
  - cbn [digits_fuel]. destruct (N.eqb_spec (n / 10) 0) as [Hq|Hq].
    + exists [48 + n mod 10].
      assert (n < 10) by lia.
      rewrite N.mod_small by lia.
      repeat split.
      * constructor; [|constructor]. apply is_digit_spec. lia.
      * unfold digits_to_N, digits_to_N_acc, digit_val. simpl. lia.
      * simpl. intros ? [=]. lia.
    + assert (Hlt : n / 10 < 2 ^ N.of_nat f).
      { rewrite Nat2N.inj_succ, N.pow_succ_r' in Hn. lia. }
      assert (Hf' : f <> O) by (intros ->; simpl in Hlt; lia).
      destruct (IH (n / 10) ((48 + n mod 10) :: acc) Hf' Hlt)
        as (d & Hd & Hall & Hval & Hhd & Hlast).
      exists (d ++ [48 + n mod 10]). repeat split.
      * rewrite Hd, <- app_assoc. reflexivity.
      * apply Forall_app. split; [assumption|].
        constructor; [apply is_digit_of_mod | constructor].
      * rewrite digits_to_N_app, Hval. unfold digits_to_N, digits_to_N_acc, digit_val.
        simpl. lia.
      * intros _. destruct d as [|c d]; [|exact (Hhd Hq)].
        unfold digits_to_N in Hval. simpl in Hval. congruence.
      * rewrite last_snoc. reflexivity.
Qed.

Lemma N_to_digits_spec (n : N) :
  exists d, N_to_digits n = d
         /\ Forall (fun c => is_digit c = true) d
         /\ digits_to_N d = n
         /\ (n <> 0 -> head d <> Some 48)
         /\ last d = Some (48 + n mod 10).
Proof.
  unfold N_to_digits.
  destruct (digits_fuel_spec (S (N.to_nat (N.log2 n))) n []) as (d & Hd & H).
  - discriminate.
  - rewrite Nat2N.inj_succ, N2Nat.id.
    destruct (N.eq_dec n 0) as [->|Hn]; [reflexivity|].
    apply N.log2_spec. lia.
  - exists d. rewrite Hd, app_nil_r. auto.
Qed.

Lemma N_to_digits_all_digits (n : N) : Forall (fun c => is_digit c = true) (N_to_digits n).
Proof. destruct (N_to_digits_spec n) as (d & -> & H & _). exact H. Qed.

Lemma N_to_digits_value (n : N) : digits_to_N (N_to_digits n) = n.
Proof. destruct (N_to_digits_spec n) as (d & -> & _ & H & _). exact H. Qed.

Lemma N_to_digits_head (n : N) : n <> 0 -> head (N_to_digits n) <> Some 48.
Proof. destruct (N_to_digits_spec n) as (d & -> & _ & _ & H & _). exact H. Qed.

Lemma N_to_digits_last (n : N) : last (N_to_digits n) = Some (48 + n mod 10).
Proof. destruct (N_to_digits_spec n) as (d & -> & _ & _ & _ & H). exact H. Qed.

Lemma N_to_digits_cons (n : N) : exists c t, N_to_digits n = c :: t /\ is_digit c = true.
Proof.
  pose proof (N_to_digits_last n) as Hl. pose proof (N_to_digits_all_digits n) as Ha.
  destruct (N_to_digits n) as [|c t]; [discriminate|].
  exists c, t. split; [reflexivity|]. by inversion Ha.
Qed.

(** ** Zeros at the end of a digit string *)

Lemma rstrip0_zeros (d : JsStr) :
  d = rstrip0 d ++ replicate (length d - length (rstrip0 d)) 48.
Proof.
  induction d as [|c t IH]; [reflexivity|].
  cbn [rstrip0]. destruct (rstrip0 t) as [|c' t'] eqn:E.
  - simpl in IH. rewrite Nat.sub_0_r in IH.
    destruct (N.eqb_spec c 48) as [->|Hc].
    + simpl. rewrite IH at 1. reflexivity.
    + simpl. rewrite Nat.sub_0_r. rewrite IH at 1. reflexivity.
  - cbn [length app]. rewrite IH at 1. simpl. reflexivity.
Qed.

Lemma rstrip0_length (d : JsStr) : (length (rstrip0 d) <= length d)%nat.
Proof.
  pose proof (rstrip0_zeros d) as H. apply (f_equal length) in H.
  rewrite length_app in H. lia.
Qed.

Lemma rstrip0_keep (d : JsStr) (c : N) :
  last d = Some c -> c <> 48 -> rstrip0 d = d.
Proof.
  induction d as [|x t IH]; [discriminate|].
  intros Hl Hc. cbn [rstrip0].
  destruct t as [|y t'].
  - simpl in *. injection Hl as ->. destruct (N.eqb_spec c 48); [contradiction|reflexivity].
  - rewrite IH; [reflexivity| |assumption].
    rewrite <- Hl. reflexivity.
Qed.

Lemma digits_to_N_rstrip0 (d : JsStr) :
  digits_to_N d
  = digits_to_N (rstrip0 d) * 10 ^ N.of_nat (length d - length (rstrip0 d)).
Proof.
  rewrite (rstrip0_zeros d) at 1.
  rewrite digits_to_N_app, digits_to_N_zeros, length_replicate. lia.
Qed.

(** ** Splitting off a run of digits *)

Lemma span_digits_app (d rest : JsStr) :
  Forall (fun c => is_digit c = true) d ->
  starts_with_digit rest = false ->
  span_digits (d ++ rest) = (d, rest).
Proof.
  intros Hd Hr. induction Hd as [|c d Hc Hd IH].
  - simpl. destruct rest as [|c r]; [reflexivity|].
    simpl in *. rewrite Hr. reflexivity.
  - simpl. rewrite Hc, IH. reflexivity.
Qed.

(** ** Reading back a printed number *)

Lemma value_end_number_end (rest : JsStr) : value_end rest = true -> number_end rest = true.
Proof.
  destruct rest as [|c r]; [reflexivity|]. simpl. unfold is_digit. intros H.
  repeat (apply orb_true_iff in H as [H|H]); apply N.eqb_eq in H; subst; reflexivity.
Qed.

Lemma number_end_no_digit (rest : JsStr) : number_end rest = true -> starts_with_digit rest = false.
Proof.
  destruct rest as [|c r]; [reflexivity|]. simpl.
  destruct (is_digit c); [discriminate|reflexivity].
Qed.

Lemma parse_exponent_print (ex : option Z) (rest : JsStr) :
  number_end rest = true ->
  parse_exponent (exp_str ex ++ rest) = Some (default 0%Z ex, rest).
Proof.
  intros Hr. destruct ex as [e|]; simpl.
  - destruct (N_to_digits_cons (Z.abs_N e)) as (c & t & Hd & Hc).
    pose proof (N_to_digits_all_digits (Z.abs_N e)) as Hall.
    pose proof (N_to_digits_value (Z.abs_N e)) as Hv.
    assert (Hspan : span_digits (N_to_digits (Z.abs_N e) ++ rest) = (N_to_digits (Z.abs_N e), rest))
      by (apply span_digits_app; auto using number_end_no_digit).
    destruct (Z.ltb_spec e 0); simpl; rewrite Hspan, Hd, <- Hd, Hv;
      do 2 f_equal; lia.
  - destruct rest as [|c r]; [reflexivity|]. simpl in *.
    destruct (c =? 101), (c =? 69); simpl in *;
      rewrite ?orb_true_r in Hr; try discriminate; reflexivity.
Qed.

Lemma parse_fraction_print (F tail : JsStr) :
  Forall (fun c => is_digit c = true) F ->
  starts_with_digit tail = false ->
  (F = [] -> match tail with c :: _ => c =? 46 | [] => false end = false) ->
  parse_fraction (frac_str F ++ tail) = Some (F, tail).
Proof.
  intros HF Ht H46. destruct F as [|c F].
  - specialize (H46 eq_refl). destruct tail as [|c r]; [reflexivity|].
    simpl. rewrite H46. reflexivity.
  - cbn [frac_str app parse_fraction N.eqb Pos.eqb].
    change (c :: F ++ tail) with ((c :: F) ++ tail).
    rewrite span_digits_app by assumption. reflexivity.
Qed.

Lemma exp_str_head (ex : option Z) (rest : JsStr) :
  number_end rest = true ->
  starts_with_digit (exp_str ex ++ rest) = false
  /\ match exp_str ex ++ rest with c :: _ => c =? 46 | [] => false end = false.
Proof.
  intros Hr. destruct ex as [e|]; simpl; [split; reflexivity|].
  split; [by apply number_end_no_digit|].
  destruct rest as [|c r]; [reflexivity|]. simpl in Hr.
  destruct (c =? 46); [|reflexivity].
  rewrite orb_true_r in Hr. discriminate.
Qed.

Lemma frac_exp_head (F : JsStr) (ex : option Z) (rest : JsStr) :
  Forall (fun c => is_digit c = true) F ->
  number_end rest = true ->
  starts_with_digit (frac_str F ++ exp_str ex ++ rest) = false.
Proof.
  intros HF Hr. destruct F as [|c F]; simpl; [|reflexivity].
  by apply exp_str_head.
Qed.

(** A literal made of an integer part, a fraction and an exponent is read as
    the decimal with these digits. *)
Lemma parse_unsigned_shape (neg : bool) (I F : JsStr) (ex : option Z) (rest : JsStr) :
  int_part I ->
  Forall (fun c => is_digit c = true) F ->
  number_end rest = true ->
  parse_unsigned neg (I ++ frac_str F ++ exp_str ex ++ rest)
  = Some (of_decimal neg (I ++ F) (default 0%Z ex - Z.of_nat (length F)), rest).
Proof.
  intros HI HF Hr.
  assert (Hfrac : parse_fraction (frac_str F ++ exp_str ex ++ rest)
                  = Some (F, exp_str ex ++ rest)).
  { destruct (exp_str_head ex rest Hr) as [H1 H2].
    apply parse_fraction_print; auto. }
  destruct HI as [->|(Hall & Hne & Hhd)].
  - simpl. rewrite Hfrac, parse_exponent_print by assumption. reflexivity.
  - destruct I as [|c I']; [contradiction|].
    assert (Hc : is_digit c = true) by (by inversion Hall).
    assert (Hc48 : (c =? 48) = false).
    { apply N.eqb_neq. intros ->. by apply Hhd. }
    cbn [parse_unsigned app]. rewrite Hc, Hc48. cbn [negb].
    change (c :: I' ++ frac_str F ++ exp_str ex ++ rest)
      with ((c :: I') ++ frac_str F ++ exp_str ex ++ rest).
    rewrite span_digits_app by auto using frac_exp_head.
    rewrite Hfrac, parse_exponent_print by assumption. reflexivity.
Qed.

Lemma of_decimal_eq (ds : JsStr) (e m : Z) (sc : N) :
  m <> 0%Z ->
  canonical_num (Num m sc) = true ->
  (0 <= e + Z.of_N sc)%Z ->
  (Z.of_N (digits_to_N ds) * 10 ^ (e + Z.of_N sc) = Z.abs m)%Z ->
  of_decimal (m <? 0)%Z ds e = Num m sc.
Proof.
  intros Hm Hcan He Hval. unfold of_decimal.
  pose proof (digits_to_N_rstrip0 ds) as Hds.
  pose proof (rstrip0_length ds) as Hlen.
  set (sig := rstrip0 ds) in *.
  set (M := Z.of_N (digits_to_N sig)).
  set (t := Z.of_nat (length ds - length sig)).
  assert (Ht : (0 <= t)%Z) by lia.
  assert (HE : (e + Z.of_nat (length ds) - Z.of_nat (length sig) = e + t)%Z) by lia.
  rewrite HE. clear HE.
  assert (HdsZ : Z.of_N (digits_to_N ds) = (M * 10 ^ t)%Z).
  { rewrite Hds, N2Z.inj_mul, N2Z.inj_pow, nat_N_Z. reflexivity. }
  rewrite HdsZ, <- Z.mul_assoc, <- Z.pow_add_r in Hval by lia.
  assert (HM : M <> 0%Z) by (intros HM0; rewrite HM0 in Hval; lia).
  apply Z.eqb_neq in HM as HM'. rewrite HM'.
  destruct (N.eq_dec sc 0) as [Hsc|Hsc].
  - subst sc. rewrite Z.add_0_r in *.
    destruct (Z.leb_spec 0 (e + t)); [|lia].
    rewrite (Z.add_comm e t). f_equal.
    destruct (Z.ltb_spec m 0); lia.
  - unfold canonical_num in Hcan. apply orb_true_iff in Hcan as [Hsc0|Hmod];
      [apply N.eqb_eq in Hsc0; contradiction|].
    apply negb_true_iff, Z.eqb_neq in Hmod.
    assert (HK : (t + (e + Z.of_N sc))%Z = 0%Z).
    { destruct (Z.eq_dec (t + (e + Z.of_N sc))%Z 0%Z) as [|Hpos]; [assumption|].
      exfalso. apply Hmod.
      replace (t + (e + Z.of_N sc))%Z with (Z.succ (t + (e + Z.of_N sc) - 1)) in Hval by lia.
      rewrite Z.pow_succ_r in Hval by lia.
      set (q := (10 ^ (t + (e + Z.of_N sc) - 1))%Z) in *. clearbody q.
      assert (Habs : Z.abs m = (10 * (M * q))%Z) by lia.
      lia. }
    assert (Ht0 : t = 0%Z) by lia.
    rewrite HK in Hval. simpl in Hval. rewrite Ht0.
    destruct (Z.leb_spec 0 (e + 0)); [lia|].
    f_equal; [destruct (Z.ltb_spec m 0); lia | lia].
Qed.

(** Evaluates the string literals of the goal. *)
Ltac js_norm :=
  repeat match goal with
         | |- context [js ?s] =>
             let v := eval vm_compute in (js s) in change (js s) with v
         end.

Lemma int_part_digit (d : N) : is_digit d = true -> int_part [d].
Proof.
  intros Hd. destruct (N.eq_dec d 48) as [->|Hne]; [by left|].
  right. repeat split; [by repeat constructor|discriminate|].
  simpl. congruence.
Qed.

(** The literal that [Number::toString] prints for a number other than 0:
    its parts, and the decimal they denote. *)
Lemma Number_toString_shape (m : Z) (sc : N) :
  m <> 0%Z ->
  canonical_num (Num m sc) = true ->
  exists I F ex,
    Number_toString (Num m sc)
    = (if (m <? 0)%Z then js "-" else []) ++ I ++ frac_str F ++ exp_str ex
    /\ int_part I
    /\ Forall (fun c => is_digit c = true) F
    /\ of_decimal (m <? 0)%Z (I ++ F) (default 0%Z ex - Z.of_nat (length F)) = Num m sc.
Proof.
  intros Hm Hcan. unfold Number_toString.
  apply Z.eqb_neq in Hm as Hm'. rewrite Hm'. clear Hm'.
  pose proof (N_to_digits_all_digits (Z.abs_N m)) as HDall.
  pose proof (N_to_digits_value (Z.abs_N m)) as HDval.
  pose proof (N_to_digits_head (Z.abs_N m) ltac:(lia)) as HDhd.
  pose proof (N_to_digits_last (Z.abs_N m)) as HDlast.
  set (D := N_to_digits (Z.abs_N m)) in *.
  pose proof (rstrip0_zeros D) as Hzeros.
  pose proof (rstrip0_length D) as Hlen.
  pose proof (digits_to_N_rstrip0 D) as Hsval.
  set (s := rstrip0 D) in *.
  assert (Hsall : Forall (fun c => is_digit c = true) s).
  { rewrite Hzeros in HDall. by apply Forall_app in HDall as [? _]. }
  assert (Hsne : s <> []).
  { intros Hs. rewrite Hs in Hsval. unfold digits_to_N in Hsval at 2.
    simpl in Hsval. lia. }
  assert (HDne : D <> []) by (intros HD; rewrite HD in HDlast; discriminate).
  assert (HvalZ : Z.of_N (digits_to_N D) = Z.abs m) by (rewrite HDval; lia).
  assert (HsD : Z.abs_N m mod 10 <> 0 -> s = D).
  { intros Hmod. unfold s. apply (rstrip0_keep D _ HDlast). lia. }
  set (k := Z.of_nat (length s)).
  set (n := (Z.of_nat (length D) - Z.of_N sc)%Z).
  assert (Hkdef : k = Z.of_nat (length s)) by reflexivity.
  assert (Hndef : n = (Z.of_nat (length D) - Z.of_N sc)%Z) by reflexivity.
  clearbody k n s D.
  assert (Hk : (0 < k)%Z) by (destruct s; [contradiction|simpl in Hkdef; lia]).
  assert (Hexpform :
    of_decimal (m <? 0)%Z s (n - k) = Num m sc ->
    exists I F ex,
      match s with
      | [] => []
      | [d] => d :: js "e" ++ (if (n - 1 <? 0)%Z then js "-" else js "+")
                 ++ N_to_digits (Z.abs_N (n - 1))
      | d :: (_ :: _) as r =>
          d :: js "." ++ r ++ js "e" ++ (if (n - 1 <? 0)%Z then js "-" else js "+")
            ++ N_to_digits (Z.abs_N (n - 1))
      end = I ++ frac_str F ++ exp_str ex
      /\ int_part I
      /\ Forall (fun c => is_digit c = true) F
      /\ of_decimal (m <? 0)%Z (I ++ F) (default 0%Z ex - Z.of_nat (length F)) = Num m sc).
  { intros Hdec. destruct s as [|d r] eqn:Es; [contradiction|].
    exists [d], r, (Some (n - 1)%Z).
    inversion Hsall as [|? ? Hd Hr]; subst.
    split; [|split; [by apply int_part_digit|split; [assumption|]]].
    - js_norm. destruct r as [|r0 r]; reflexivity.
    - simpl. rewrite <- Hdec. f_equal. simpl. lia. }
  destruct (N.eq_dec sc 0) as [Hsc|Hsc].
  - (* an integer *)
    subst sc. assert (Hkn : (k <= n)%Z) by lia.
    destruct (Z.leb_spec k n); [|lia]. cbn [andb].
    destruct (Z.leb_spec n 21).
    + exists D, [], None. split; [|split; [|split]].
      * simpl. rewrite app_nil_r. f_equal.
        etransitivity; [|symmetry; exact Hzeros].
        do 2 f_equal. lia.
      * right. auto.
      * constructor.
      * rewrite app_nil_r. apply of_decimal_eq; auto.
        -- simpl. lia.
        -- simpl. lia.
    + destruct (Z.ltb_spec 0 n); cbn [andb].
      * destruct (Z.ltb_spec (-6) n); cbn [andb]; [destruct (Z.leb_spec n 0); [lia|]|].
        -- destruct Hexpform as (I & F & ex & Hs1 & Hs2 & Hs3 & Hs4).
           { apply of_decimal_eq; auto; [lia|].
             replace (n - k + Z.of_N 0)%Z with (Z.of_nat (length D - length s)) by lia.
             rewrite <- HvalZ, Hsval, N2Z.inj_mul, N2Z.inj_pow, nat_N_Z. reflexivity. }
           exists I, F, ex. rewrite Hs1. auto.
        -- lia.
      * lia.
  - (* a fraction *)
    pose proof Hcan as Hmod.
    unfold canonical_num in Hmod. apply orb_true_iff in Hmod as [Hsc0|Hmod];
      [apply N.eqb_eq in Hsc0; contradiction|].
    apply negb_true_iff, Z.eqb_neq in Hmod.
    specialize (HsD ltac:(lia)). subst s.
    assert (Hkn : (n < k)%Z) by lia.
    assert (Hdec : of_decimal (m <? 0)%Z D (n - k) = Num m sc).
    { apply of_decimal_eq; auto.
      - lia.
      - replace (n - k + Z.of_N sc)%Z with 0%Z by lia.
        simpl. lia. }
    destruct (Z.leb_spec k n); [lia|]. cbn [andb].
    destruct (Z.ltb_spec 0 n); cbn [andb]; [destruct (Z.leb_spec n 21)|].
    + (* digits on both sides of the point *)
      exists (take (Z.to_nat n) D), (drop (Z.to_nat n) D), None.
      assert (Hdrop : drop (Z.to_nat n) D <> []).
      { intros Hd. apply (f_equal length) in Hd. rewrite length_drop in Hd.
        simpl in Hd. lia. }
      split; [|split; [|split]].
      * do 2 f_equal.
        destruct (drop (Z.to_nat n) D) eqn:Ed; [contradiction|].
        simpl. rewrite app_nil_r. reflexivity.
      * right. split; [by apply Forall_take|]. split.
        -- destruct D; [contradiction|]. destruct (Z.to_nat n) eqn:En; [lia|discriminate].
        -- destruct D; [contradiction|]. destruct (Z.to_nat n) eqn:En; [lia|exact HDhd].
      * by apply Forall_drop.
      * rewrite take_drop. rewrite <- Hdec. f_equal.
        rewrite length_drop. simpl. lia.
    + destruct (Z.ltb_spec (-6) n); cbn [andb]; [destruct (Z.leb_spec n 0); [lia|]|].
      * destruct Hexpform as (I & F & ex & Hs1 & Hs2 & Hs3 & Hs4); [assumption|].
        exists I, F, ex. rewrite Hs1. auto.
      * destruct Hexpform as (I & F & ex & Hs1 & Hs2 & Hs3 & Hs4); [assumption|].
        exists I, F, ex. rewrite Hs1. auto.
    + destruct (Z.ltb_spec (-6) n); cbn [andb]; [destruct (Z.leb_spec n 0); [|lia]|].
      * (* zeros after the point *)
        exists [48], (replicate (Z.to_nat (- n)) 48 ++ D), None.
        assert (Hz : Forall (fun c => is_digit c = true) (replicate (Z.to_nat (- n)) 48 ++ D)).
        { apply Forall_app. split; [|assumption]. by apply Forall_replicate. }
        split; [|split; [|split]].
        -- f_equal. js_norm.
           destruct (replicate (Z.to_nat (- n)) 48 ++ D) eqn:Ed.
           ++ apply app_eq_nil in Ed as [_ ?]. contradiction.
           ++ simpl. rewrite app_nil_r. reflexivity.
        -- by left.
        -- assumption.
        -- apply of_decimal_eq; auto.
           ++ rewrite length_app, length_replicate. simpl. lia.
           ++ rewrite length_app, length_replicate.
              replace (default 0%Z None - Z.of_nat (Z.to_nat (- n) + length D) + Z.of_N sc)%Z
                with 0%Z by (simpl; lia).
              change ([48] ++ replicate (Z.to_nat (- n)) 48 ++ D)
                with (replicate (S (Z.to_nat (- n))) 48 ++ D).
              rewrite digits_to_N_app, digits_to_N_zeros. simpl. lia.
      * destruct Hexpform as (I & F & ex & Hs1 & Hs2 & Hs3 & Hs4); [assumption|].
        exists I, F, ex. rewrite Hs1. auto.
Qed.

Lemma int_part_head (I : JsStr) :
  int_part I -> exists c t, I = c :: t /\ is_digit c = true.
Proof.
  intros [->|(Hall & Hne & _)]; [by exists 48, []|].
  destruct I as [|c t]; [contradiction|].
  exists c, t. split; [reflexivity|]. by inversion Hall.
Qed.

(** Round trip of numbers: what [Number::toString] prints, [parse_number]
    reads back. *)
Lemma parse_number_toString (x : JsNum) (rest : JsStr) :
  canonical_num x = true ->
  number_end rest = true ->
  parse_number (Number_toString x ++ rest) = Some (x, rest).
Proof.
  intros Hcan Hr. destruct x as [m sc| | |negative]; try discriminate.
  destruct (Z.eq_dec m 0%Z) as [->|Hm].
  - assert (sc = 0) as ->.
    { unfold canonical_num in Hcan. simpl in Hcan.
      rewrite orb_false_r in Hcan. by apply N.eqb_eq. }
    change (Number_toString (Num 0 0)) with [48].
    change (parse_number ([48] ++ rest)) with (parse_unsigned false ([48] ++ rest)).
    pose proof (parse_unsigned_shape false [48] [] None rest) as H.
    cbn [app frac_str exp_str] in *. rewrite H; auto. by left.
  - destruct (Number_toString_shape m sc Hm Hcan) as (I & F & ex & Hs & HI & HF & Hdec).
    rewrite Hs, <- Hdec.
    destruct (Z.ltb_spec m 0).
    + change (parse_number ((js "-" ++ I ++ frac_str F ++ exp_str ex) ++ rest))
        with (parse_unsigned true ((I ++ frac_str F ++ exp_str ex) ++ rest)).
      rewrite <- !app_assoc. by apply parse_unsigned_shape.
    + destruct (int_part_head I HI) as (c & t & -> & Hc).
      cbn [app parse_number].
      assert (Hc45 : (c =? 45) = false).
      { apply N.eqb_neq. intros ->. discriminate. }
      rewrite Hc45.
      change (c :: (t ++ frac_str F ++ exp_str ex) ++ rest)
        with (((c :: t) ++ frac_str F ++ exp_str ex) ++ rest).
      rewrite <- !app_assoc. by apply parse_unsigned_shape.
Qed.

(** ** Reading back a quoted string *)

Lemma hex_val_digit (n : N) : n < 16 -> hex_val (hex_digit n) = Some n.
Proof.
  intros Hn. destruct n as [|p]; [reflexivity|].
  do 4 (destruct p as [p|p|]; try reflexivity; try lia).
Qed.

Lemma hex4_escape (c : N) :
  c < 65536 ->
  hex4 (hex_digit (c / 4096 mod 16)) (hex_digit (c / 256 mod 16))
       (hex_digit (c / 16 mod 16)) (hex_digit (c mod 16)) = Some c.
Proof.
  intros Hc. unfold hex4.
  rewrite !hex_val_digit by lia. f_equal. lia.
Qed.

Lemma parse_string_chars_escape (c : N) (tail : JsStr) :
  c < 65536 ->
  parse_string_chars (unicode_escape c ++ tail) = read_unit c (parse_string_chars tail).
Proof.
  intros Hc. unfold unicode_escape. cbn [app parse_string_chars].
  change (92 =? 34) with false. change (92 =? 92) with true.
  change (117 =? 117) with true. cbv iota.
  rewrite hex4_escape by assumption. reflexivity.
Qed.

Lemma parse_string_chars_raw (c : N) (tail : JsStr) :
  32 <= c -> c <> 34 -> c <> 92 ->
  parse_string_chars (c :: tail) = read_unit c (parse_string_chars tail).
Proof.
  intros H32 H34 H92. cbn [parse_string_chars].
  apply N.eqb_neq in H34, H92. rewrite H34, H92.
  destruct (N.ltb_spec c 32); [lia|]. reflexivity.
Qed.

Lemma parse_string_chars_quote_unit (c : N) (tail : JsStr) :
  parse_string_chars (quote_unit c ++ tail) = read_unit c (parse_string_chars tail).
Proof.
  unfold quote_unit.
  repeat (match goal with
          | |- context [if ?x =? ?y then _ else _] =>
              destruct (N.eqb_spec x y) as [->|?]; [reflexivity|]
          end).
  destruct (N.ltb_spec c 32).
  - apply parse_string_chars_escape. lia.
  - by apply parse_string_chars_raw.
Qed.

Lemma surrogate_bounds (c : N) :
  is_high_surrogate c = true \/ is_low_surrogate c = true -> 32 <= c < 65536 /\ c <> 34 /\ c <> 92.
Proof.
  unfold is_high_surrogate, is_low_surrogate.
  rewrite !andb_true_iff, !N.leb_le. lia.
Qed.

Lemma parse_string_chars_quote_units (s : JsStr) :
  forall rest,
    parse_string_chars (quote_units s ++ 34 :: rest) = Some (s, rest)
    /\ forall c, parse_string_chars (quote_units (c :: s) ++ 34 :: rest) = Some (c :: s, rest).
Proof.
  induction s as [|y s IH]; intros rest.
  - split; [reflexivity|]. intros c. cbn [quote_units].
    destruct (is_high_surrogate c) eqn:Hh; [|destruct (is_low_surrogate c) eqn:Hl].
    + rewrite parse_string_chars_escape; [reflexivity|]. apply surrogate_bounds. auto.
    + rewrite app_nil_r, parse_string_chars_escape; [reflexivity|].
      apply surrogate_bounds. auto.
    + rewrite app_nil_r, parse_string_chars_quote_unit. reflexivity.
  - destruct (IH rest) as [IH0 IH1]. split; [apply IH1|].
    intros c. pose proof (IH1 y) as Hy.
    cbn [quote_units] in *.
    destruct (is_high_surrogate c) eqn:Hh; [destruct (is_low_surrogate y) eqn:Hly|
                                           destruct (is_low_surrogate c) eqn:Hl].
    + cbn [app].
      destruct (surrogate_bounds c (or_introl Hh)) as (? & ? & ?).
      destruct (surrogate_bounds y (or_intror Hly)) as (? & ? & ?).
      rewrite !parse_string_chars_raw by lia. rewrite IH0. reflexivity.
    + rewrite <- app_assoc, parse_string_chars_escape, Hy; [reflexivity|].
      apply surrogate_bounds. auto.
    + rewrite <- app_assoc, parse_string_chars_escape, Hy; [reflexivity|].
      apply surrogate_bounds. auto.
    + rewrite <- app_assoc, parse_string_chars_quote_unit, Hy. reflexivity.
Qed.

(** Round trip of strings: what QuoteJSONString writes after the opening
    quote, [parse_string_chars] reads back. *)
Lemma parse_string_chars_quote (s rest : JsStr) :
  parse_string_chars (quote_units s ++ 34 :: rest) = Some (s, rest).
Proof. apply parse_string_chars_quote_units. Qed.

(** ** Objects whose keys are in enumeration order *)

Lemma replace_value_fresh (k : JsStr) (v : JsValue) (props : list (JsStr * JsValue)) :
  k ∉ map fst props -> replace_value k v props = None.
Proof.
  induction props as [|[k' v'] t IH]; intros Hk; [reflexivity|].
  cbn [replace_value]. cbn [map fst] in Hk.
  apply not_elem_of_cons in Hk as [Hne Ht].
  destruct (decide (k' = k)) as [->|_]; [contradiction|].
  rewrite IH by assumption. reflexivity.
Qed.

Lemma insert_index_last (i : N) (k : JsStr) (v : JsValue) (props : list (JsStr * JsValue)) :
  forallb (fun k' => match array_index k' with
                     | Some j => j <? i
                     | None => false
                     end) (map fst props) = true ->
  insert_index i k v props = props ++ [(k, v)].
Proof.
  induction props as [|[k' v'] t IH]; intros H; [reflexivity|].
  cbn [map fst forallb] in H. apply andb_true_iff in H as [Hk' Ht].
  cbn [insert_index app]. destruct (array_index k') as [j|]; [|discriminate].
  rewrite Hk', IH by assumption. reflexivity.
Qed.

Lemma CreateDataProperty_append (props : list (JsStr * JsValue)) (k : JsStr) (v : JsValue) :
  appendable (map fst props) k = true ->
  CreateDataProperty props k v = props ++ [(k, v)].
Proof.
  unfold appendable, CreateDataProperty. intros H.
  apply andb_true_iff in H as [Hfresh Hidx].
  apply negb_true_iff, bool_decide_eq_false in Hfresh.
  rewrite replace_value_fresh by assumption.
  destruct (array_index k) as [i|]; [|reflexivity].
  by apply insert_index_last.
Qed.

Lemma fold_CreateDataProperty_append (l acc : list (JsStr * JsValue)) :
  keys_in_order_from (map fst acc) (map fst l) = true ->
  fold_left (fun o kv => CreateDataProperty o (fst kv) (snd kv)) l acc = acc ++ l.
Proof.
  revert acc. induction l as [|[k v] t IH]; intros acc H.
  - simpl. by rewrite app_nil_r.
  - cbn [map fst keys_in_order_from] in H. apply andb_true_iff in H as [Hk Ht].
    cbn [fold_left fst snd]. rewrite CreateDataProperty_append by assumption.
    rewrite IH.
    + by rewrite <- app_assoc.
    + by rewrite map_app.
Qed.

Lemma object_of_entries_in_order (props : list (JsStr * JsValue)) :
  keys_in_order (map fst props) = true -> object_of_entries props = props.
Proof. intros H. unfold object_of_entries. by rewrite fold_CreateDataProperty_append. Qed.

(** ** Reading back a printed value *)

Lemma value_start_spec (c : N) :
  value_start c = true ->
  is_ws c = false /\ (c =? 93) = false /\ (c =? 125) = false /\ (c =? 44) = false.
Proof.
  unfold value_start, is_ws, is_digit.
  rewrite !orb_true_iff, !andb_true_iff, !orb_false_iff, !N.eqb_eq, !N.eqb_neq, !N.leb_le.
  lia.
Qed.

Lemma value_end_spec (rest : JsStr) :
  value_end rest = true ->
  rest = [] \/ exists c t, rest = c :: t /\ is_ws c = false /\ (c = 44 \/ c = 93 \/ c = 125).
Proof.
  destruct rest as [|c t]; [by left|]. simpl. intros H. right. exists c, t.
  split; [reflexivity|].
  rewrite !orb_true_iff, !N.eqb_eq in H.
  unfold is_ws. rewrite !orb_false_iff, !N.eqb_neq. lia.
Qed.

Lemma parse_number_head (l : JsStr) (r : JsNum * JsStr) :
  parse_number l = Some r ->
  exists c t, l = c :: t /\ (c = 45 \/ 48 <= c <= 57).
Proof.
  destruct l as [|c t]; [discriminate|]. intros H. exists c, t.
  split; [reflexivity|]. cbn [parse_number] in H.
  destruct (N.eqb_spec c 45); [by left|]. right.
  cbn [parse_unsigned] in H. destruct (is_digit c) eqn:Hc; [|discriminate].
  by apply is_digit_spec.
Qed.

Lemma parse_value_number (f : nat) (l : JsStr) (x : JsNum) (rest : JsStr) :
  parse_number l = Some (x, rest) ->
  parse_value (S f) l = POk (JsNumber x) rest.
Proof.
  intros H. destruct (parse_number_head l _ H) as (c & t & -> & Hc).
  cbn [parse_value skip_ws].
  assert (Hws : is_ws c = false).
  { unfold is_ws. rewrite !orb_false_iff, !N.eqb_neq. lia. }
  rewrite Hws.
  destruct (N.eqb_spec c 91); [lia|]. destruct (N.eqb_spec c 123); [lia|].
  destruct (N.eqb_spec c 34); [lia|].
  assert (Hd : (c =? 45) || is_digit c = true).
  { apply orb_true_iff. destruct Hc as [->|Hc]; [by left|right; by apply is_digit_spec]. }
  rewrite Hd, H. reflexivity.
Qed.

Lemma reads_back_number (x : JsNum) :
  canonical_num x = true -> reads_back (JsNumber x) (Number_toString x).
Proof.
  intros Hcan. split.
  - pose proof (parse_number_toString x [] Hcan eq_refl) as H.
    rewrite app_nil_r in H.
    destruct (parse_number_head _ _ H) as (c & t & Hs & Hc).
    exists c, t. split; [assumption|].
    unfold value_start. rewrite !orb_true_iff.
    destruct Hc as [->|Hc]; [left; by right|right; by apply is_digit_spec].
  - intros [|f] rest Hf Hr; [simpl in Hf; lia|].
    apply parse_value_number, parse_number_toString; auto using value_end_number_end.
Qed.

Lemma reads_back_string (s : JsStr) : reads_back (JsString s) (QuoteJSONString s).
Proof.
  split; [by exists 34, (quote_units s ++ [34])|].
  intros [|f] rest Hf Hr; [simpl in Hf; lia|].
  unfold QuoteJSONString. cbn [app parse_value skip_ws].
  change (is_ws 34) with false. change (34 =? 91) with false.
  change (34 =? 123) with false. change (34 =? 34) with true. cbv iota.
  rewrite <- app_assoc. cbn [app]. rewrite parse_string_chars_quote. reflexivity.
Qed.

Lemma skip_ws_start (c : N) (t : JsStr) : is_ws c = false -> skip_ws (c :: t) = c :: t.
Proof. intros H. cbn [skip_ws]. by rewrite H. Qed.

Lemma skip_ws_value_end (rest : JsStr) : value_end rest = true -> skip_ws rest = rest.
Proof.
  intros H. destruct (value_end_spec rest H) as [->|(c & t & -> & Hws & _)]; [reflexivity|].
  by apply skip_ws_start.
Qed.

Lemma SerializeJSONProperty_array (elems : list JsValue) :
  SerializeJSONProperty (JsArray elems)
  = do parts <- cmapM serialize_element elems;
    Normal (Some (js "[" ++ join (js ",") parts ++ js "]")).
Proof. reflexivity. Qed.

Lemma SerializeJSONProperty_object (props : list (JsStr * JsValue)) :
  SerializeJSONProperty (JsObject props)
  = do parts <- cmapM serialize_member props;
    Normal (Some (js "{" ++ join (js ",") (omap id parts) ++ js "}")).
Proof. reflexivity. Qed.

Lemma cmapM_cons {A B} (f : A -> Completion B) (x : A) (t : list A) :
  cmapM f (x :: t) = do y <- f x; do ys <- cmapM f t; Normal (y :: ys).
Proof. reflexivity. Qed.

Lemma join_cons (sep x : JsStr) (t : list JsStr) :
  t <> [] -> join sep (x :: t) = x ++ sep ++ join sep t.
Proof. destruct t; [contradiction|reflexivity]. Qed.

Lemma elements_read_back (l : list JsValue) :
  Forall serializes l -> l <> [] ->
  exists parts,
    cmapM serialize_element l = Normal parts
    /\ (exists c t, join (js ",") parts = c :: t /\ value_start c = true)
    /\ forall fuel rest,
         (list_sum (map (fun x => S (vsize x)) l) <= fuel)%nat ->
         parse_elements fuel (join (js ",") parts ++ 93 :: rest) = POk l rest.
Proof.
  induction 1 as [|v t (s & Hs & Hhead & Hread) Ht IH]; [contradiction|]. intros _.
  assert (Hv : serialize_element v = Normal s) by (unfold serialize_element; by rewrite Hs).
  destruct t as [|v' t'].
  - exists [s]. rewrite cmapM_cons, Hv. split; [reflexivity|]. split; [exact Hhead|].
    intros [|f] rest Hf; [simpl in Hf; lia|].
    cbn [join parse_elements]. rewrite Hread; [|simpl in Hf; lia|reflexivity].
    reflexivity.
  - destruct IH as (parts & Hparts & (c & r & Hj & Hc) & Hreadt); [discriminate|].
    exists (s :: parts). rewrite cmapM_cons, Hv. cbn [cbind]. rewrite Hparts.
    split; [reflexivity|].
    assert (Hne : parts <> []) by (intros ->; discriminate).
    rewrite join_cons by assumption. split.
    + destruct Hhead as (c0 & t0 & -> & Hc0). by exists c0, (t0 ++ js "," ++ join (js ",") parts).
    + intros [|f] rest Hf; [simpl in Hf; lia|].
      cbn [parse_elements]. rewrite <- !app_assoc.
      change (js "," ++ join (js ",") parts ++ 93 :: rest)
        with (44 :: join (js ",") parts ++ 93 :: rest).
      rewrite Hread; [|simpl in Hf; lia|reflexivity].
      cbn [skip_ws]. change (is_ws 44) with false. cbv iota.
      change (44 =? 44) with true. cbv iota.
      rewrite Hreadt; [reflexivity|]. simpl in Hf |- *. lia.
Qed.

Lemma members_read_back (props : list (JsStr * JsValue)) :
  Forall (fun kv => serializes (snd kv)) props -> props <> [] ->
  exists parts,
    cmapM serialize_member props = Normal parts
    /\ (exists t, join (js ",") (omap id parts) = 34 :: t)
    /\ forall fuel rest,
         (list_sum (map (fun kv => S (vsize (snd kv))) props) <= fuel)%nat ->
         parse_members fuel (join (js ",") (omap id parts) ++ 125 :: rest) = POk props rest.
Proof.
  induction 1 as [|[k v] t (s & Hs & Hhead & Hread) Ht IH]; [contradiction|]. intros _.
  cbn [snd] in *.
  set (m := QuoteJSONString k ++ js ":" ++ s).
  assert (Hv : serialize_member (k, v) = Normal (Some m)).
  { unfold serialize_member. cbn [fst snd]. by rewrite Hs. }
  assert (Hm : forall tail f,
             (vsize v <= f)%nat -> value_end tail = true ->
             parse_members (S f) (m ++ tail)
             = match skip_ws tail with
               | [] => PErr
               | c' :: r3 =>
                   if c' =? 44 then presult_map (cons (k, v)) (parse_members f r3)
                   else if c' =? 125 then POk [(k, v)] r3
                   else PErr
               end).
  { intros tail f Hf Htail. unfold m, QuoteJSONString.
    cbn [parse_members app skip_ws]. change (is_ws 34) with false. cbv iota.
    change (negb (34 =? 34)) with false. cbv iota.
    rewrite <- !app_assoc. cbn [app].
    rewrite parse_string_chars_quote.
    change (js ":" ++ s ++ tail) with (58 :: s ++ tail).
    cbn [skip_ws]. change (is_ws 58) with false. cbv iota.
    change (negb (58 =? 58)) with false. cbv iota.
    rewrite Hread by assumption. reflexivity. }
  destruct t as [|kv' t'].
  - exists [Some m]. rewrite cmapM_cons, Hv. split; [reflexivity|].
    split; [by eexists|].
    intros [|f] rest Hf; [simpl in Hf; lia|].
    cbn [omap id join]. rewrite Hm; [reflexivity| |reflexivity].
    simpl in Hf. lia.
  - destruct IH as (parts & Hparts & (r & Hj) & Hreadt); [discriminate|].
    exists (Some m :: parts). rewrite cmapM_cons, Hv. cbn [cbind]. rewrite Hparts.
    split; [reflexivity|].
    change (omap id (Some m :: parts)) with (m :: omap id parts).
    assert (Hne : omap id parts <> []) by (intros Hnil; rewrite Hnil in Hj; discriminate).
    rewrite join_cons by assumption. split; [by eexists|].
    intros [|f] rest Hf; [simpl in Hf; lia|].
    rewrite <- !app_assoc.
    change (js "," ++ join (js ",") (omap id parts) ++ 125 :: rest)
      with (44 :: join (js ",") (omap id parts) ++ 125 :: rest).
    rewrite Hm; [|simpl in Hf; lia|reflexivity].
    cbn [skip_ws]. change (is_ws 44) with false. cbv iota.
    change (44 =? 44) with true. cbv iota.
    rewrite Hreadt; [reflexivity|]. simpl in Hf |- *. lia.
Qed.

(** Round trip of values: every value that JSON represents is serialized, and
    its text is read back as the same value. *)
Lemma JSON_serializable_serializes (v : JsValue) :
  JSON_serializable v = true -> serializes v.
Proof.
  induction v as [| |b|x|z|s|elems IH|props IH] using JsValue_nested_ind;
    cbn [JSON_serializable]; intros Hv; try discriminate.
  - exists (js "null"). split; [reflexivity|]. split; [by exists 110, (js "ull")|].
    intros [|f] rest Hf _; [simpl in Hf; lia|reflexivity].
  - destruct b.
    + exists (js "true"). split; [reflexivity|]. split; [by exists 116, (js "rue")|].
      intros [|f] rest Hf _; [simpl in Hf; lia|reflexivity].
    + exists (js "false"). split; [reflexivity|]. split; [by exists 102, (js "alse")|].
      intros [|f] rest Hf _; [simpl in Hf; lia|reflexivity].
  - exists (Number_toString x). split; [by destruct x|]. by apply reads_back_number.
  - exists (QuoteJSONString s). split; [reflexivity|]. apply reads_back_string.
  - assert (Hall : Forall serializes elems).
    { rewrite forallb_forall in Hv. rewrite Forall_forall in *.
      intros x Hx. apply IH; [assumption|]. apply Hv. by apply list_elem_of_In. }
    unfold serializes. rewrite SerializeJSONProperty_array.
    destruct elems as [|v0 t0].
    + exists (js "[]"). split; [reflexivity|]. split; [by exists 91, [93]|].
      intros [|f] rest Hf _; [simpl in Hf; lia|reflexivity].
    + destruct (elements_read_back (v0 :: t0) Hall ltac:(discriminate))
        as (parts & Hparts & (c & r & Hj & Hc) & Hread).
      rewrite Hparts. eexists. split; [reflexivity|].
      split; [by exists 91, (join (js ",") parts ++ js "]")|].
      intros [|f] rest Hf Hr; [simpl in Hf; lia|].
      change ((js "[" ++ join (js ",") parts ++ js "]") ++ rest)
        with (91 :: (join (js ",") parts ++ js "]") ++ rest).
      rewrite <- app_assoc. change (js "]" ++ rest) with (93 :: rest).
      cbn [parse_value skip_ws]. change (is_ws 91) with false. cbv iota.
      change (91 =? 91) with true. cbv iota.
      destruct (value_start_spec c Hc) as (Hws & H93 & _).
      rewrite Hread by (cbn [vsize] in Hf; lia).
      rewrite Hj. cbn [app]. rewrite skip_ws_start, H93 by assumption. reflexivity.
  - apply andb_true_iff in Hv as [Hkeys Hvals].
    assert (Hall : Forall (fun kv => serializes (snd kv)) props).
    { rewrite forallb_forall in Hvals. rewrite Forall_forall in *.
      intros x Hx. apply IH; [assumption|]. apply Hvals. by apply list_elem_of_In. }
    unfold serializes. rewrite SerializeJSONProperty_object.
    destruct props as [|kv0 t0].
    + exists (js "{}"). split; [reflexivity|]. split; [by exists 123, [125]|].
      intros [|f] rest Hf _; [simpl in Hf; lia|reflexivity].
    + destruct (members_read_back (kv0 :: t0) Hall ltac:(discriminate))
        as (parts & Hparts & (r & Hj) & Hread).
      rewrite Hparts. eexists. split; [reflexivity|].
      split; [by exists 123, (join (js ",") (omap id parts) ++ js "}")|].
      intros [|f] rest Hf Hr; [simpl in Hf; lia|].
      change ((js "{" ++ join (js ",") (omap id parts) ++ js "}") ++ rest)
        with (123 :: (join (js ",") (omap id parts) ++ js "}") ++ rest).
      rewrite <- app_assoc. change (js "}" ++ rest) with (125 :: rest).
      cbn [parse_value skip_ws]. change (is_ws 123) with false. cbv iota.
      change (123 =? 91) with false. change (123 =? 123) with true. cbv iota.
      rewrite Hread by (cbn [vsize] in Hf; lia).
      rewrite Hj. cbn [app skip_ws]. change (is_ws 34) with false. cbv iota.
      change (34 =? 125) with false. cbv iota. cbn [presult_map].
      by rewrite object_of_entries_in_order.
Qed.

(** ** The parser consumes its input *)

Lemma skip_ws_length (s : JsStr) : (length (skip_ws s) <= length s)%nat.
Proof.
  induction s as [|c t IH]; [reflexivity|].
  cbn [skip_ws]. destruct (is_ws c); simpl in *; lia.
Qed.

Lemma skip_ws_cons_length (s : JsStr) (c : N) (t : JsStr) :
  skip_ws s = c :: t -> (length t < length s)%nat.
Proof.
  intros H. pose proof (skip_ws_length s) as Hl. rewrite H in Hl. simpl in Hl. lia.
Qed.

Lemma strip_prefix_length (p s r : JsStr) :
  strip_prefix p s = Some r -> length s = (length p + length r)%nat.
Proof.
  revert s. induction p as [|c p IH]; intros s H.
  - simpl in H. by injection H as ->.
  - destruct s as [|d s]; [discriminate|]. cbn [strip_prefix] in H.
    destruct (c =? d); [|discriminate]. simpl. by rewrite (IH s).
Qed.

Lemma span_digits_length (s d r : JsStr) :
  span_digits s = (d, r) -> length s = (length d + length r)%nat.
Proof.
  revert d r. induction s as [|c t IH]; intros d r H.
  - by injection H as <- <-.
  - cbn [span_digits] in H. destruct (is_digit c).
    + destruct (span_digits t) as [d' r'] eqn:E. injection H as <- <-.
      simpl. by rewrite (IH d' r').
    + by injection H as <- <-.
Qed.

Lemma parse_string_chars_length (n : nat) :
  forall s r rest,
    (length s <= n)%nat ->
    parse_string_chars s = Some (r, rest) -> (length rest < length s)%nat.
Proof.
  induction n as [|n IH]; intros s r rest Hn H.
  - destruct s; [discriminate|simpl in Hn; lia].
  - destruct s as [|c t]; [discriminate|]. cbn [parse_string_chars] in H.
    simpl in Hn.
    destruct (c =? 34); [injection H as <- <-; simpl; lia|].
    destruct (c =? 92).
    + destruct t as [|e t']; [discriminate|].
      destruct (e =? 117).
      * destruct t' as [|h1 [|h2 [|h3 [|h4 t'']]]]; try discriminate.
        destruct (hex4 h1 h2 h3 h4); [|discriminate].
        destruct (parse_string_chars t'') as [[r' rest']|] eqn:E; [|discriminate].
        injection H as <- <-. apply IH in E; simpl in *; lia.
      * destruct (unescape e); [|discriminate].
        destruct (parse_string_chars t') as [[r' rest']|] eqn:E; [|discriminate].
        injection H as <- <-. apply IH in E; simpl in *; lia.
    + destruct (c <? 32); [discriminate|].
      destruct (parse_string_chars t) as [[r' rest']|] eqn:E; [|discriminate].
      injection H as <- <-. apply IH in E; simpl in *; lia.
Qed.

Lemma parse_fraction_length (s fp rest : JsStr) :
  parse_fraction s = Some (fp, rest) -> (length rest <= length s)%nat.
Proof.
  unfold parse_fraction. destruct s as [|d t]; [by intros [= <- <-]|].
  destruct (d =? 46); [|by intros [= <- <-]].
  destruct (span_digits t) as [fp' rest'] eqn:E. apply span_digits_length in E.
  destruct fp'; [discriminate|]. intros [= <- <-]. simpl in *. lia.
Qed.

Lemma parse_exponent_length (s : JsStr) (X : Z) (rest : JsStr) :
  parse_exponent s = Some (X, rest) -> (length rest <= length s)%nat.
Proof.
  unfold parse_exponent. destruct s as [|x t]; [by intros [= <- <-]|].
  destruct ((x =? 101) || (x =? 69)); [|by intros [= <- <-]].
  destruct t as [|g t'].
  - simpl. discriminate.
  - destruct (g =? 45); [|destruct (g =? 43)];
      destruct (span_digits _) as [ep rest0] eqn:E; apply span_digits_length in E;
      (destruct ep; [discriminate|]); intros [= _ <-]; simpl in *; lia.
Qed.

Lemma parse_unsigned_length (neg : bool) (s : JsStr) (x : JsNum) (rest : JsStr) :
  parse_unsigned neg s = Some (x, rest) -> (length rest < length s)%nat.
Proof.
  unfold parse_unsigned. destruct s as [|c t]; [discriminate|].
  destruct (is_digit c) eqn:Hc; [|discriminate]. cbn [negb].
  assert (Hip : exists ip s2, (if c =? 48 then ([c], t) else span_digits (c :: t)) = (ip, s2)
                              /\ (length s2 <= length t)%nat).
  { destruct (c =? 48); [by exists [c], t|].
    cbn [span_digits]. rewrite Hc.
    destruct (span_digits t) as [d r] eqn:E. apply span_digits_length in E.
    exists (c :: d), r. split; [reflexivity|lia]. }
  destruct Hip as (ip & s2 & -> & Hs2).
  destruct (parse_fraction s2) as [[fp s3]|] eqn:Ef; [|discriminate].
  apply parse_fraction_length in Ef.
  destruct (parse_exponent s3) as [[X rest']|] eqn:Ee; [|discriminate].
  apply parse_exponent_length in Ee.
  intros [= _ <-]. simpl. lia.
Qed.

Lemma parse_number_length (s : JsStr) (x : JsNum) (rest : JsStr) :
  parse_number s = Some (x, rest) -> (length rest < length s)%nat.
Proof.
  unfold parse_number. destruct s as [|c t]; [discriminate|].
  destruct (c =? 45); intros H; apply parse_unsigned_length in H; simpl in *; lia.
Qed.

Lemma presult_map_ok {A B} (g : A -> B) (r : presult A) (b : B) (rest : JsStr) :
  presult_map g r = POk b rest -> exists a, r = POk a rest /\ b = g a.
Proof. destruct r; try discriminate. intros [= <- <-]. by eexists. Qed.

Lemma presult_map_fuel {A B} (g : A -> B) (r : presult A) :
  presult_map g r = PFuel <-> r = PFuel.
Proof. destruct r; simpl; split; congruence. Qed.

Lemma parse_consumes (f : nat) :
  forall s,
    (forall v r, parse_value f s = POk v r -> (length r < length s)%nat)
    /\ (forall l r, parse_elements f s = POk l r -> (length r < length s)%nat)
    /\ (forall l r, parse_members f s = POk l r -> (length r < length s)%nat).
Proof.
  induction f as [|f IH]; intros s; [repeat split; discriminate|].
  split; [|split].
  - cbn [parse_value]. destruct (skip_ws s) as [|c t] eqn:Es; [discriminate|].
    apply skip_ws_cons_length in Es.
    destruct (c =? 91); [|destruct (c =? 123); [|destruct (c =? 34);
                           [|destruct ((c =? 45) || is_digit c)]]].
    + destruct (skip_ws t) as [|c' t'] eqn:Et; [discriminate|].
      apply skip_ws_cons_length in Et.
      destruct (c' =? 93); [intros v r [= <- <-]; lia|].
      intros v r H. apply presult_map_ok in H as (l & H & _).
      apply IH in H. lia.
    + destruct (skip_ws t) as [|c' t'] eqn:Et; [discriminate|].
      apply skip_ws_cons_length in Et.
      destruct (c' =? 125); [intros v r [= <- <-]; lia|].
      intros v r H. apply presult_map_ok in H as (l & H & _).
      apply IH in H. lia.
    + destruct (parse_string_chars t) as [[str rest]|] eqn:E; [|discriminate].
      apply (parse_string_chars_length (length t)) in E; [|lia].
      intros v r [= <- <-]. lia.
    + destruct (parse_number (c :: t)) as [[x rest]|] eqn:E; [|discriminate].
      apply parse_number_length in E. intros v r [= <- <-]. simpl in E. lia.
    + destruct (strip_prefix (js "null") (c :: t)) as [r0|] eqn:E1;
        [apply strip_prefix_length in E1; intros v r [= <- <-]; simpl in E1; lia|].
      destruct (strip_prefix (js "true") (c :: t)) as [r0|] eqn:E2;
        [apply strip_prefix_length in E2; intros v r [= <- <-]; simpl in E2; lia|].
      destruct (strip_prefix (js "false") (c :: t)) as [r0|] eqn:E3;
        [apply strip_prefix_length in E3; intros v r [= <- <-]; simpl in E3; lia|].
      discriminate.
  - cbn [parse_elements]. destruct (parse_value f s) as [v r0| |] eqn:Ev; try discriminate.
    apply IH in Ev. destruct (skip_ws r0) as [|c r'] eqn:Er; [discriminate|].
    apply skip_ws_cons_length in Er.
    destruct (c =? 44).
    + intros l r H. apply presult_map_ok in H as (l' & H & _). apply IH in H. lia.
    + destruct (c =? 93); [|discriminate]. intros l r [= <- <-]. lia.
  - cbn [parse_members]. destruct (skip_ws s) as [|q t] eqn:Es; [discriminate|].
    apply skip_ws_cons_length in Es.
    destruct (negb (q =? 34)); [discriminate|].
    destruct (parse_string_chars t) as [[k r0]|] eqn:Ek; [|discriminate].
    apply (parse_string_chars_length (length t)) in Ek; [|lia].
    destruct (skip_ws r0) as [|c r1] eqn:Er0; [discriminate|].
    apply skip_ws_cons_length in Er0.
    destruct (negb (c =? 58)); [discriminate|].
    destruct (parse_value f r1) as [v r2| |] eqn:Ev; try discriminate.
    apply IH in Ev. destruct (skip_ws r2) as [|c' r3] eqn:Er2; [discriminate|].
    apply skip_ws_cons_length in Er2.
    destruct (c' =? 44).
    + intros l r H. apply presult_map_ok in H as (l' & H & _). apply IH in H. lia.
    + destruct (c' =? 125); [|discriminate]. intros l r [= <- <-]. lia.
Qed.

(** ** The recursion budget of [JSON_parse_text] is never used up *)

Lemma parse_fuel_enough (f : nat) :
  forall s,
    ((2 * length s < f)%nat -> parse_value f s <> PFuel)
    /\ ((2 * length s + 1 < f)%nat -> parse_elements f s <> PFuel)
    /\ ((2 * length s + 1 < f)%nat -> parse_members f s <> PFuel).
Proof.
  induction f as [|f IH]; intros s; [repeat split; lia|].
  split; [|split]; intros Hf.
  - cbn [parse_value]. destruct (skip_ws s) as [|c t] eqn:Es; [discriminate|].
    apply skip_ws_cons_length in Es.
    destruct (c =? 91); [|destruct (c =? 123); [|destruct (c =? 34);
                           [|destruct ((c =? 45) || is_digit c)]]].
    + destruct (skip_ws t) as [|c' t'] eqn:Et; [discriminate|].
      destruct (c' =? 93); [discriminate|].
      rewrite presult_map_fuel. apply IH. lia.
    + destruct (skip_ws t) as [|c' t'] eqn:Et; [discriminate|].
      destruct (c' =? 125); [discriminate|].
      rewrite presult_map_fuel. apply IH. lia.
    + destruct (parse_string_chars t) as [[str rest]|]; discriminate.
    + destruct (parse_number (c :: t)) as [[x rest]|]; discriminate.
    + repeat (destruct (strip_prefix _ _); [discriminate|]). discriminate.
  - cbn [parse_elements]. destruct (parse_value f s) as [v r0| |] eqn:Ev.
    + apply (parse_consumes f s) in Ev.
      destruct (skip_ws r0) as [|c r'] eqn:Er; [discriminate|].
      apply skip_ws_cons_length in Er.
      destruct (c =? 44); [|destruct (c =? 93); discriminate].
      rewrite presult_map_fuel. apply IH. lia.
    + discriminate.
    + exfalso. revert Ev. apply IH. lia.
  - cbn [parse_members]. destruct (skip_ws s) as [|q t] eqn:Es; [discriminate|].
    apply skip_ws_cons_length in Es.
    destruct (negb (q =? 34)); [discriminate|].
    destruct (parse_string_chars t) as [[k r0]|] eqn:Ek; [|discriminate].
    apply (parse_string_chars_length (length t)) in Ek; [|lia].
    destruct (skip_ws r0) as [|c r1] eqn:Er0; [discriminate|].
    apply skip_ws_cons_length in Er0.
    destruct (negb (c =? 58)); [discriminate|].
    destruct (parse_value f r1) as [v r2| |] eqn:Ev.
    + apply (parse_consumes f r1) in Ev.
      destruct (skip_ws r2) as [|c' r3] eqn:Er2; [discriminate|].
      apply skip_ws_cons_length in Er2.
      destruct (c' =? 44); [|destruct (c' =? 125); discriminate].
      rewrite presult_map_fuel. apply IH. lia.
    + discriminate.
    + exfalso. revert Ev. apply IH. lia.
Qed.

(** More budget does not change a result. *)
Lemma parse_fuel_mono (n : nat) :
  forall m s, (n <= m)%nat ->
    (parse_value n s <> PFuel -> parse_value m s = parse_value n s)
    /\ (parse_elements n s <> PFuel -> parse_elements m s = parse_elements n s)
    /\ (parse_members n s <> PFuel -> parse_members m s = parse_members n s).
Proof.
  induction n as [|n IH]; intros m s Hm; [repeat split; intros H; by contradiction H|].
  destruct m as [|m]; [lia|]. apply Nat.succ_le_mono in Hm.
  split; [|split].
  - cbn [parse_value]. destruct (skip_ws s) as [|c t]; [reflexivity|].
    destruct (c =? 91); [|destruct (c =? 123); [|reflexivity]].
    + destruct (skip_ws t) as [|c' t']; [reflexivity|].
      destruct (c' =? 93); [reflexivity|].
      rewrite presult_map_fuel. intros H. f_equal. by apply IH.
    + destruct (skip_ws t) as [|c' t']; [reflexivity|].
      destruct (c' =? 125); [reflexivity|].
      rewrite presult_map_fuel. intros H. f_equal. by apply IH.
  - cbn [parse_elements]. intros H.
    assert (Hv : parse_value n s <> PFuel) by (intros E; rewrite E in H; by apply H).
    destruct (IH m s Hm) as (IHv & _ & _). rewrite (IHv Hv).
    destruct (parse_value n s) as [v r0| |]; try reflexivity.
    destruct (skip_ws r0) as [|c r']; [reflexivity|].
    destruct (c =? 44); [|reflexivity].
    rewrite presult_map_fuel in H. f_equal. by apply IH.
  - cbn [parse_members]. destruct (skip_ws s) as [|q t]; [reflexivity|].
    destruct (negb (q =? 34)); [reflexivity|].
    destruct (parse_string_chars t) as [[k r0]|]; [|reflexivity].
    destruct (skip_ws r0) as [|c r1]; [reflexivity|].
    destruct (negb (c =? 58)); [reflexivity|].
    intros H.
    assert (Hv : parse_value n r1 <> PFuel) by (intros E; rewrite E in H; by apply H).
    destruct (IH m r1 Hm) as (IHv & _ & _). rewrite (IHv Hv).
    destruct (parse_value n r1) as [v r2| |]; try reflexivity.
    destruct (skip_ws r2) as [|c' r3]; [reflexivity|].
    destruct (c' =? 44); [|reflexivity].
    rewrite presult_map_fuel in H. f_equal. by apply IH.
Qed.

(** [JSON_parse_text] gives the parser all the budget it can use. *)
Lemma parse_value_fuel_irrelevant (s : JsStr) (fuel : nat) :
  (2 * length s < fuel)%nat ->
  parse_value fuel s = parse_value (2 * length s + 1) s.
Proof.
  intros Hf. apply parse_fuel_mono; [lia|].
  apply parse_fuel_enough. lia.
Qed.

(** [JSON.parse] of the text of a value that JSON represents. *)
Lemma JSON_parse_text_serialized (v : JsValue) (s : JsStr) :
  JSON_serializable v = true ->
  SerializeJSONProperty v = Normal (Some s) ->
  JSON_parse_text s = Normal v.
Proof.
  intros Hv Hs. destruct (JSON_serializable_serializes v Hv) as (s' & Hs' & _ & Hread).
  rewrite Hs in Hs'. injection Hs' as <-.
  unfold JSON_parse_text.
  set (fuel := Nat.max (2 * length s + 1) (vsize v)).
  rewrite <- (parse_value_fuel_irrelevant s fuel) by lia.
  pose proof (Hread fuel [] ltac:(lia) eq_refl) as H.
  rewrite app_nil_r in H. rewrite H. reflexivity.
Qed.

(** ** The adapter on any host store *)

Section Adapter.
Context {S : Type} `{!Storage.Interface S} {StorageEngine : Type}.
Implicit Types (this : LocalStorage.t StorageEngine) (key : JsStr) (σ : S).

Lemma testParse_spec this (value : JsValue) :
  LocalStorage.testParse this value = Normal (decode value).
Proof.
  unfold LocalStorage.testParse, decode, try_catch, cbind.
  by destruct (JSON_parse value).
Qed.

Lemma get_spec this key σ :
  LocalStorage.get this key σ
  = match Storage.getItem key σ with
    | (Normal r, σ') => (Fulfilled (decode (item_value r)), σ')
    | (Throw e, σ') => (Rejected e, σ')
    end.
Proof.
  unfold LocalStorage.get, new_Promise, eff_try, eff_bind, host, pure,
    LocalStorage.window_localStorage_getItem, eff_bind, pure.
  cbn [fst snd]. destruct (Storage.getItem key σ) as [[r|e] σ']; [|reflexivity].
  cbn [fst snd]. rewrite testParse_spec. reflexivity.
Qed.

Lemma set_spec this key (value : JsValue) σ :
  LocalStorage.set this key value σ
  = match LocalStorage.testForArray this value with
    | Normal checkedValue =>
        match Storage.setItem key (ToString checkedValue) σ with
        | (Normal _, σ') => (Fulfilled JsUndefined, σ')
        | (Throw e, σ') => (Rejected e, σ')
        end
    | Throw e => (Rejected e, σ)
    end.
Proof.
  unfold LocalStorage.set, new_Promise, eff_try, eff_bind, host, pure,
    LocalStorage.window_localStorage_setItem.
  destruct (LocalStorage.testForArray this value) as [c|e]; [|reflexivity].
  cbn [fst snd]. by destruct (Storage.setItem key (ToString c) σ) as [[[]|e] σ'].
Qed.

Lemma remove_spec this key σ :
  LocalStorage.remove this key σ
  = match Storage.removeItem key σ with
    | (Normal _, σ') => (Fulfilled JsUndefined, σ')
    | (Throw e, σ') => (Rejected e, σ')
    end.
Proof.
  unfold LocalStorage.remove, new_Promise, eff_try, eff_bind, host, pure,
    LocalStorage.window_localStorage_removeItem.
  cbn [fst snd]. by destruct (Storage.removeItem key σ) as [[[]|e] σ'].
Qed.

Lemma clear_spec this σ :
  LocalStorage.clear this σ
  = match Storage.clear σ with
    | (Normal _, σ') => (Fulfilled JsUndefined, σ')
    | (Throw e, σ') => (Rejected e, σ')
    end.
Proof.
  unfold LocalStorage.clear, new_Promise, eff_try, eff_bind, host, pure,
    LocalStorage.window_localStorage_clear.
  cbn [fst snd]. by destruct (Storage.clear σ) as [[[]|e] σ'].
Qed.
End Adapter.

(** ** The adapter on the browser's store *)

Section Browser.
Context {StorageEngine : Type}.
Implicit Types (this : LocalStorage.t StorageEngine) (key : JsStr) (σ : BrowserStore).

Lemma browser_setItem_atomic key (s : JsStr) σ (e : JsError) σ' :
  Storage.setItem key s σ = (Throw e, σ') -> σ' = σ.
Proof.
  cbn [Storage.setItem browser_storage]. unfold browser_setItem.
  destruct (bs_available σ); [|congruence].
  destruct (_ <=? _); congruence.
Qed.

(** After a [set] that resolved, the store is reachable and holds the
    string form of the checked value under the key. *)
Lemma set_resolved this key (value : JsValue) σ (u : JsValue) σ' :
  LocalStorage.set this key value σ = (Fulfilled u, σ') ->
  exists checkedValue,
    LocalStorage.testForArray this value = Normal checkedValue
    /\ bs_available σ' = true
    /\ bs_items σ' !! key = Some (ToString checkedValue).
Proof.
  rewrite set_spec. destruct (LocalStorage.testForArray this value) as [c|e]; [|discriminate].
  cbn [Storage.setItem browser_storage]. unfold browser_setItem.
  destruct (bs_available σ) eqn:Ha; [|discriminate].
  destruct (_ <=? _); [|discriminate].
  intros [= _ <-]. exists c. cbn [with_items bs_available bs_items].
  split; [reflexivity|]. split; [assumption|]. apply lookup_insert_eq.
Qed.

Lemma get_available this key σ :
  bs_available σ = true ->
  LocalStorage.get this key σ
  = (Fulfilled (decode (item_value (bs_items σ !! key))), σ).
Proof.
  intros Ha. rewrite get_spec. cbn [Storage.getItem browser_storage].
  unfold browser_getItem. by rewrite Ha.
Qed.

Lemma remove_resolved this key σ (u : JsValue) σ' :
  LocalStorage.remove this key σ = (Fulfilled u, σ') ->
  bs_available σ' = true /\ bs_items σ' !! key = None.
Proof.
  rewrite remove_spec. cbn [Storage.removeItem browser_storage]. unfold browser_removeItem.
  destruct (bs_available σ) eqn:Ha; [|discriminate].
  intros [= _ <-]. cbn [with_items bs_available bs_items].
  split; [assumption|]. apply lookup_delete_eq.
Qed.

Lemma clear_resolved this key σ (u : JsValue) σ' :
  LocalStorage.clear this σ = (Fulfilled u, σ') ->
  bs_available σ' = true /\ bs_items σ' !! key = None.
Proof.
  rewrite clear_spec. cbn [Storage.clear browser_storage]. unfold browser_clear.
  destruct (bs_available σ) eqn:Ha; [|discriminate].
  intros [= _ <-]. cbn [with_items bs_available bs_items].
  split; [assumption|]. apply lookup_empty.
Qed.
End Browser.

Lemma testForArray_array {StorageEngine : Type} (this : LocalStorage.t StorageEngine)
    (elems : list JsValue) :
  LocalStorage.testForArray this (JsArray elems)
  = do s <- SerializeJSONArray elems; Normal (JsString s).
Proof.
  unfold LocalStorage.testForArray, JSON_stringify, SerializeJSONArray.
  cbn [Array_isArray]. rewrite SerializeJSONProperty_array.
  by destruct (cmapM serialize_element elems).
Qed.

Lemma SerializeJSONArray_property (elems : list JsValue) (s : JsStr) :
  SerializeJSONProperty (JsArray elems) = Normal (Some s) ->
  SerializeJSONArray elems = Normal s.
Proof.
  rewrite SerializeJSONProperty_array. unfold SerializeJSONArray.
  destruct (cmapM serialize_element elems); simpl; congruence.
Qed.

(** * The specification of the class *)

(** C1. For every string key [k] and every array [v] that JSON represents,
    if [set(k, v)] resolves, then [get(k)] resolves with a value deep-equal
    to [v]. *)
Theorem set_get_array_round_trip {StorageEngine : Type} (this : LocalStorage.t StorageEngine)
    (k : JsStr) (elems : list JsValue) (σ σ' : BrowserStore) :
  JSON_serializable (JsArray elems) = true ->
  LocalStorage.set this k (JsArray elems) σ = (Fulfilled JsUndefined, σ') ->
  exists v, LocalStorage.get this k σ' = (Fulfilled v, σ') /\ deep_equal v (JsArray elems).
Proof.
  intros Hser Hset.
  destruct (JSON_serializable_serializes _ Hser) as (s & Hs & _).
  destruct (set_resolved _ _ _ _ _ _ Hset) as (c & Hc & Ha & Hk).
  rewrite testForArray_array, (SerializeJSONArray_property _ _ Hs) in Hc.
  injection Hc as <-. cbn [ToString] in Hk.
  exists (JsArray elems). split; [|reflexivity].
  rewrite (get_available _ _ _ Ha), Hk. cbn [item_value].
  unfold decode, JSON_parse. cbn [ToString].
  by rewrite (JSON_parse_text_serialized _ _ Hser Hs).
Qed.

Lemma set_get_array_round_trip_witness :
  let v := [JsInt 1; JsArray [JsString (js "a"); JsNull]; JsNumber (Num (-25) 1)] in
  let σ' := snd (LocalStorage.set this0 (js "k") (JsArray v) store0) in
  JSON_serializable (JsArray v) = true
  /\ LocalStorage.set this0 (js "k") (JsArray v) store0 = (Fulfilled JsUndefined, σ')
  /\ exists r, LocalStorage.get this0 (js "k") σ' = (Fulfilled r, σ') /\ deep_equal r (JsArray v).
Proof.
  intros v σ'.
  assert (H1 : JSON_serializable (JsArray v) = true) by reflexivity.
  assert (H2 : LocalStorage.set this0 (js "k") (JsArray v) store0 = (Fulfilled JsUndefined, σ'))
    by (vm_compute; reflexivity).
  split; [exact H1|]. split; [exact H2|].
  exact (set_get_array_round_trip this0 (js "k") v store0 σ' H1 H2).
Defined.

(** C2. For every string key [k] and every string [s] that is not a JSON
    text, if [set(k, s)] resolves, then [get(k)] resolves with exactly the
    string [s]. *)
Theorem set_get_plain_string {StorageEngine : Type} (this : LocalStorage.t StorageEngine)
    (k s : JsStr) (σ σ' : BrowserStore) (e : JsError) :
  JSON_parse (JsString s) = Throw e ->
  LocalStorage.set this k (JsString s) σ = (Fulfilled JsUndefined, σ') ->
  LocalStorage.get this k σ' = (Fulfilled (JsString s), σ').
Proof.
  intros Hparse Hset.
  destruct (set_resolved _ _ _ _ _ _ Hset) as (c & Hc & Ha & Hk).
  injection Hc as <-. cbn [ToString] in Hk.
  rewrite (get_available _ _ _ Ha), Hk. cbn [item_value].
  unfold decode. by rewrite Hparse.
Qed.

Lemma set_get_plain_string_witness :
  let σ' := snd (LocalStorage.set this0 (js "k") (JsString (js "hello world")) store0) in
  JSON_parse (JsString (js "hello world")) = Throw Unexpected_token
  /\ LocalStorage.set this0 (js "k") (JsString (js "hello world")) store0
     = (Fulfilled JsUndefined, σ')
  /\ LocalStorage.get this0 (js "k") σ' = (Fulfilled (JsString (js "hello world")), σ').
Proof.
  intros σ'.
  assert (H1 : JSON_parse (JsString (js "hello world")) = Throw Unexpected_token)
    by (vm_compute; reflexivity).
  assert (H2 : LocalStorage.set this0 (js "k") (JsString (js "hello world")) store0
               = (Fulfilled JsUndefined, σ')) by (vm_compute; reflexivity).
  split; [exact H1|]. split; [exact H2|].
  exact (set_get_plain_string this0 (js "k") (js "hello world") store0 σ' _ H1 H2).
Defined.

(** C3. [testParse] never raises.  For every input, a string or the value
    [null] that the host returns for a missing key, it returns the decoded
    value when [JSON.parse] succeeds and the input itself when [JSON.parse]
    raises. *)
Theorem testParse_total {StorageEngine : Type} (this : LocalStorage.t StorageEngine)
    (value : JsValue) :
  exists r,
    LocalStorage.testParse this value = Normal r
    /\ r = match JSON_parse value with
           | Normal parsedValue => parsedValue
           | Throw _ => value
           end.
Proof. exists (decode value). split; [apply testParse_spec|reflexivity]. Qed.

(** C4, as stated, fails: for an array in which a BigInt occurs
    [testForArray] returns no string, it raises the error of
    [JSON.stringify]. *)
Lemma testForArray_raises_for_bigint_array :
  ~ testForArray_returns_text this0 (JsArray [JsInt 1; JsBigInt 2]).
Proof.
  intros [text H]. vm_compute in H. discriminate H.
Qed.

(** C4, amended.  For an array [testForArray] ends as [JSON.stringify] does
    on it: it returns the JSON text of the array, as a string, or raises the
    error of the serialization; it never returns the array itself.  For every
    other argument (numbers, booleans, objects, null, undefined, ...) it
    returns the argument itself. *)
Theorem testForArray_spec {StorageEngine : Type} (this : LocalStorage.t StorageEngine)
    (value : JsValue) :
  match value with
  | JsArray elems =>
      LocalStorage.testForArray this value
      = (do s <- SerializeJSONArray elems; Normal (JsString s))
      /\ LocalStorage.testForArray this value <> Normal value
  | _ => LocalStorage.testForArray this value = Normal value
  end.
Proof.
  destruct value as [| |b|x|z|s|elems|props]; try reflexivity.
  split; [apply testForArray_array|].
  rewrite testForArray_array. by destruct (SerializeJSONArray elems).
Qed.

(** C5. For every string key [k]: after [remove(k)] has resolved, and
    likewise after [clear()] has resolved, [get(k)] resolves with [null], the
    value of the host for a missing key. *)
Theorem get_after_remove_or_clear {StorageEngine : Type} (this : LocalStorage.t StorageEngine)
    (k : JsStr) (σ σ' : BrowserStore) :
  LocalStorage.remove this k σ = (Fulfilled JsUndefined, σ')
  \/ LocalStorage.clear this σ = (Fulfilled JsUndefined, σ') ->
  LocalStorage.get this k σ' = (Fulfilled JsNull, σ').
Proof.
  intros [H|H];
    [apply remove_resolved in H as [Ha Hk] | apply (clear_resolved _ k) in H as [Ha Hk]];
    rewrite (get_available _ _ _ Ha), Hk; reflexivity.
Qed.

Lemma get_after_remove_or_clear_witness :
  let σ := snd (LocalStorage.set this0 (js "k") (JsString (js "v")) store0) in
  let σ1 := snd (LocalStorage.remove this0 (js "k") σ) in
  let σ2 := snd (LocalStorage.clear this0 σ) in
  (LocalStorage.remove this0 (js "k") σ = (Fulfilled JsUndefined, σ1)
   /\ LocalStorage.get this0 (js "k") σ1 = (Fulfilled JsNull, σ1))
  /\ (LocalStorage.clear this0 σ = (Fulfilled JsUndefined, σ2)
      /\ LocalStorage.get this0 (js "k") σ2 = (Fulfilled JsNull, σ2)).
Proof.
  intros σ σ1 σ2.
  assert (H1 : LocalStorage.remove this0 (js "k") σ = (Fulfilled JsUndefined, σ1))
    by (vm_compute; reflexivity).
  assert (H2 : LocalStorage.clear this0 σ = (Fulfilled JsUndefined, σ2))
    by (vm_compute; reflexivity).
  split; (split; [assumption|]).
  - exact (get_after_remove_or_clear this0 (js "k") σ σ1 (or_introl H1)).
  - exact (get_after_remove_or_clear this0 (js "k") σ σ2 (or_intror H2)).
Defined.

(** C6. Collision of parse-on-read: once [set(k, "true")] has resolved,
    [get(k)] resolves with the boolean [true]; once [set("count", 42)] has
    resolved, the store holds the string "42" under "count" and
    [get("count")] resolves with the number 42. *)
Theorem parse_on_read_collision {StorageEngine : Type} (this : LocalStorage.t StorageEngine)
    (k : JsStr) (σa σa' σb σb' : BrowserStore) :
  LocalStorage.set this k (JsString (js "true")) σa = (Fulfilled JsUndefined, σa') ->
  LocalStorage.set this (js "count") (JsInt 42) σb = (Fulfilled JsUndefined, σb') ->
  LocalStorage.get this k σa' = (Fulfilled (JsBool true), σa')
  /\ bs_items σb' !! js "count" = Some (js "42")
  /\ LocalStorage.get this (js "count") σb' = (Fulfilled (JsInt 42), σb').
Proof.
  intros Ha Hb.
  destruct (set_resolved _ _ _ _ _ _ Ha) as (c & Hc & Hav & Hk). injection Hc as <-.
  destruct (set_resolved _ _ _ _ _ _ Hb) as (c & Hc & Hbv & Hcount). injection Hc as <-.
  rewrite (get_available _ _ _ Hav), (get_available _ _ _ Hbv), Hk, Hcount.
  repeat split.
Qed.

Lemma parse_on_read_collision_witness :
  let σa' := snd (LocalStorage.set this0 (js "k") (JsString (js "true")) store0) in
  let σb' := snd (LocalStorage.set this0 (js "count") (JsInt 42) store0) in
  LocalStorage.get this0 (js "k") σa' = (Fulfilled (JsBool true), σa')
  /\ bs_items σb' !! js "count" = Some (js "42")
  /\ LocalStorage.get this0 (js "count") σb' = (Fulfilled (JsInt 42), σb').
Proof.
  intros σa' σb'.
  apply (parse_on_read_collision this0 (js "k") store0 σa' store0 σb');
    vm_compute; reflexivity.
Defined.

(** C7, as stated, fails for [set]: the promise rejects with the error of
    [JSON.stringify] although [setItem] was never called. *)
Lemma set_rejects_without_setItem_raising :
  ~ set_rejects_iff_setItem_raises this0 (js "k") (JsArray [JsBigInt 1]) store0.
Proof.
  intros H.
  destruct (proj1 (H BigInt_not_serializable)) as (c & Hc & _).
  - vm_compute. reflexivity.
  - vm_compute in Hc. discriminate Hc.
Qed.

(** C7, amended.  For [get], [remove] and [clear] the promise rejects exactly
    when the host call raises, with the error raised.  For [set] it rejects
    exactly when the encoding of the value raises, before the host is called,
    or the host call [setItem] raises; again with the error raised.  No
    promise is left pending, so each one resolves when nothing raises, and
    the host state afterwards is the one the single host call left. *)
Theorem promise_rejects_with_raised_error {S : Type} `{!Storage.Interface S}
    {StorageEngine : Type} (this : LocalStorage.t StorageEngine)
    (key : JsStr) (value : JsValue) (σ : S) (e : JsError) :
  ((fst (LocalStorage.get this key σ) = Rejected e <-> fst (Storage.getItem key σ) = Throw e)
   /\ fst (LocalStorage.get this key σ) <> Pending
   /\ snd (LocalStorage.get this key σ) = snd (Storage.getItem key σ))
  /\ ((fst (LocalStorage.remove this key σ) = Rejected e
       <-> fst (Storage.removeItem key σ) = Throw e)
      /\ fst (LocalStorage.remove this key σ) <> Pending
      /\ snd (LocalStorage.remove this key σ) = snd (Storage.removeItem key σ))
  /\ ((fst (LocalStorage.clear this σ) = Rejected e <-> fst (Storage.clear σ) = Throw e)
      /\ fst (LocalStorage.clear this σ) <> Pending
      /\ snd (LocalStorage.clear this σ) = snd (Storage.clear σ))
  /\ ((fst (LocalStorage.set this key value σ) = Rejected e
       <-> LocalStorage.testForArray this value = Throw e
           \/ exists checkedValue,
                LocalStorage.testForArray this value = Normal checkedValue
                /\ fst (Storage.setItem key (ToString checkedValue) σ) = Throw e)
      /\ fst (LocalStorage.set this key value σ) <> Pending
      /\ snd (LocalStorage.set this key value σ)
         = match LocalStorage.testForArray this value with
           | Normal checkedValue => snd (Storage.setItem key (ToString checkedValue) σ)
           | Throw _ => σ
           end).
Proof.
  rewrite get_spec, remove_spec, clear_spec, set_spec.
  split; [|split; [|split]].
  - destruct (Storage.getItem key σ) as [[r|e'] σ']; cbn [fst snd];
      (split; [split; congruence|split; [discriminate|reflexivity]]).
  - destruct (Storage.removeItem key σ) as [[r|e'] σ']; cbn [fst snd];
      (split; [split; congruence|split; [discriminate|reflexivity]]).
  - destruct (Storage.clear σ) as [[r|e'] σ']; cbn [fst snd];
      (split; [split; congruence|split; [discriminate|reflexivity]]).
  - destruct (LocalStorage.testForArray this value) as [c|e0].
    + destruct (Storage.setItem key (ToString c) σ) as [[r|e'] σ'] eqn:Hset; cbn [fst snd];
        (split; [|split; [discriminate|reflexivity]]).
      * split; [discriminate|].
        intros [Hx|(c' & [= <-] & Hx)]; [discriminate|].
        rewrite Hset in Hx. discriminate.
      * split.
        -- intros [= ->]. right. exists c. by rewrite Hset.
        -- intros [Hx|(c' & [= <-] & Hx)]; [discriminate|].
           rewrite Hset in Hx. cbn [fst] in Hx. congruence.
    + cbn [fst snd]. split; [|split; [discriminate|reflexivity]].
      split.
      * intros [= ->]. by left.
      * intros [Hx|(c' & Hx & _)]; congruence.
Qed.

(** C8. When the host call [setItem] changes nothing if it raises, a [set]
    that rejects changes nothing: the value stored under the key, and every
    other entry, is as before. *)
Theorem rejected_set_changes_nothing {S : Type} `{!Storage.Interface S}
    {StorageEngine : Type} (this : LocalStorage.t StorageEngine)
    (key : JsStr) (value : JsValue) (σ σ' : S) (e : JsError) :
  (forall k s σ0 e0 σ1, Storage.setItem k s σ0 = (Throw e0, σ1) -> σ1 = σ0) ->
  LocalStorage.set this key value σ = (Rejected e, σ') ->
  σ' = σ.
Proof.
  intros Hatomic. rewrite set_spec.
  destruct (LocalStorage.testForArray this value) as [c|e0]; [|congruence].
  destruct (Storage.setItem key (ToString c) σ) as [[r|e'] σ1] eqn:Hset; [discriminate|].
  intros [= _ <-]. by apply (Hatomic _ _ _ _ _ Hset).
Qed.

Lemma rejected_set_changes_nothing_witness :
  LocalStorage.set this0 (js "k") (JsString (js "a longer value")) store_full
  = (Rejected QuotaExceededError, store_full)
  /\ bs_items store_full !! js "k" = Some (js "old").
Proof.
  assert (H : LocalStorage.set this0 (js "k") (JsString (js "a longer value")) store_full
              = (Rejected QuotaExceededError,
                 snd (LocalStorage.set this0 (js "k") (JsString (js "a longer value"))
                        store_full)))
    by (vm_compute; reflexivity).
  rewrite H.
  rewrite (rejected_set_changes_nothing this0 (js "k") (JsString (js "a longer value"))
             store_full _ QuotaExceededError browser_setItem_atomic H).
  split; reflexivity.
Defined.

(** C9. The options given to the constructor have no effect: two instances
    built with any two options are the same instance, and every operation
    behaves the same on both. *)
Theorem constructor_ignores_options {S : Type} `{!Storage.Interface S}
    {StorageEngine : Type} (StorageEngine_constructor : StorageEngine)
    (options1 options2 : JsValue) :
  let this1 := LocalStorage.constructor StorageEngine_constructor options1 in
  let this2 := LocalStorage.constructor StorageEngine_constructor options2 in
  this1 = this2
  /\ (forall key (σ : S), LocalStorage.get this1 key σ = LocalStorage.get this2 key σ)
  /\ (forall key value (σ : S),
        LocalStorage.set this1 key value σ = LocalStorage.set this2 key value σ)
  /\ (forall key (σ : S), LocalStorage.remove this1 key σ = LocalStorage.remove this2 key σ)
  /\ (forall σ : S, LocalStorage.clear this1 σ = LocalStorage.clear this2 σ)
  /\ (forall value, LocalStorage.testParse this1 value = LocalStorage.testParse this2 value)
  /\ (forall value,
        LocalStorage.testForArray this1 value = LocalStorage.testForArray this2 value).
Proof. repeat split. Qed.

(** C10. When the host store holds the empty string under a key, [get]
    resolves with the empty string; when it holds nothing under the key,
    [get] resolves with [null]; the two values differ. *)
Theorem get_empty_string_item {S : Type} `{!Storage.Interface S}
    {StorageEngine : Type} (this : LocalStorage.t StorageEngine)
    (key : JsStr) (σ1 σ1' σ2 σ2' : S) :
  Storage.getItem key σ1 = (Normal (Some []), σ1') ->
  Storage.getItem key σ2 = (Normal None, σ2') ->
  LocalStorage.get this key σ1 = (Fulfilled (JsString []), σ1')
  /\ LocalStorage.get this key σ2 = (Fulfilled JsNull, σ2')
  /\ JsString [] <> JsNull.
Proof.
  intros H1 H2. rewrite !get_spec, H1, H2. repeat split. discriminate.
Qed.

Lemma get_empty_string_item_witness :
  let σ1 := snd (LocalStorage.set this0 (js "k") (JsString []) store0) in
  LocalStorage.get this0 (js "k") σ1 = (Fulfilled (JsString []), σ1)
  /\ LocalStorage.get this0 (js "k") store0 = (Fulfilled JsNull, store0)
  /\ JsString [] <> JsNull.
Proof.
  intros σ1.
  apply (get_empty_string_item this0 (js "k") σ1 σ1 store0 store0);
    vm_compute; reflexivity.
Defined.

(** * Further properties of the class *)

(** ** What a write leaves in the browser's store *)

Section BrowserWrites.
Context {StorageEngine : Type}.
Implicit Types (this : LocalStorage.t StorageEngine) (key : JsStr) (σ : BrowserStore).

Lemma with_items_same σ : with_items σ (bs_items σ) = σ.
Proof. by destruct σ. Qed.

(** A [set] that resolved wrote one entry, the string form of the checked
    value, in a store that scripts may reach. *)
Lemma set_resolved_store this key (value : JsValue) σ (u : JsValue) σ' :
  LocalStorage.set this key value σ = (Fulfilled u, σ') ->
  exists checkedValue,
    LocalStorage.testForArray this value = Normal checkedValue
    /\ bs_available σ = true
    /\ (storage_size (<[key := ToString checkedValue]> (bs_items σ)) <=? bs_quota σ) = true
    /\ u = JsUndefined
    /\ σ' = with_items σ (<[key := ToString checkedValue]> (bs_items σ)).
Proof.
  rewrite set_spec. destruct (LocalStorage.testForArray this value) as [c|e]; [|discriminate].
  cbn [Storage.setItem browser_storage]. unfold browser_setItem.
  destruct (bs_available σ) eqn:Ha; [|discriminate].
  destruct (_ <=? _) eqn:Hq; [|discriminate].
  intros [= <- <-]. by exists c.
Qed.

Lemma set_store_resolves this key (value checkedValue : JsValue) σ :
  LocalStorage.testForArray this value = Normal checkedValue ->
  bs_available σ = true ->
  (storage_size (<[key := ToString checkedValue]> (bs_items σ)) <=? bs_quota σ) = true ->
  LocalStorage.set this key value σ
  = (Fulfilled JsUndefined, with_items σ (<[key := ToString checkedValue]> (bs_items σ))).
Proof.
  intros Hc Ha Hq. rewrite set_spec, Hc.
  cbn [Storage.setItem browser_storage]. unfold browser_setItem.
  by rewrite Ha, Hq.
Qed.

Lemma remove_resolved_store this key σ (u : JsValue) σ' :
  LocalStorage.remove this key σ = (Fulfilled u, σ') ->
  bs_available σ = true /\ u = JsUndefined /\ σ' = with_items σ (delete key (bs_items σ)).
Proof.
  rewrite remove_spec. cbn [Storage.removeItem browser_storage]. unfold browser_removeItem.
  destruct (bs_available σ) eqn:Ha; [|discriminate].
  by intros [= <- <-].
Qed.
End BrowserWrites.

(** X1. What is read back of null, a boolean or a number: once [set(k, v)]
    has resolved, [get(k)] resolves with [v] itself when [v] is null, a
    boolean or a finite number other than the negative zero; with the string
    "NaN", "Infinity" or "-Infinity" when [v] is that number; and with zero
    when [v] is the negative zero. *)
Theorem set_get_primitive {StorageEngine : Type} (this : LocalStorage.t StorageEngine)
    (k : JsStr) (v : JsValue) (σ σ' : BrowserStore) :
  json_primitive v = true ->
  LocalStorage.set this k v σ = (Fulfilled JsUndefined, σ') ->
  LocalStorage.get this k σ' = (Fulfilled (primitive_read_back v), σ').
Proof.
  intros Hv Hset.
  destruct (set_resolved _ _ _ _ _ _ Hset) as (c & Hc & Ha & Hk).
  assert (Hcv : c = v) by (destruct v; try discriminate; by injection Hc as <-).
  subst c. rewrite (get_available _ _ _ Ha), Hk. cbn [item_value]. f_equal. f_equal.
  assert (Hfaithful : JSON_serializable v = true ->
                      SerializeJSONProperty v = Normal (Some (ToString v)) ->
                      decode (JsString (ToString v)) = v).
  { intros Hs Htext. unfold decode, JSON_parse. cbn [ToString].
    by rewrite (JSON_parse_text_serialized _ _ Hs Htext). }
  destruct v as [| |b|[m sc| | |[|]]|z|s|elems|props]; try discriminate;
    try reflexivity.
  - apply Hfaithful; [reflexivity|by destruct b].
  - by apply Hfaithful.
Qed.

Lemma set_get_primitive_witness :
  let v := JsNumber (Num (-1234567) 3) in
  let σ' := snd (LocalStorage.set this0 (js "k") v store0) in
  let σn := snd (LocalStorage.set this0 (js "k") (JsNumber NaN) store0) in
  (bs_items σ' !! js "k" = Some (js "-1234.567")
   /\ LocalStorage.get this0 (js "k") σ' = (Fulfilled v, σ'))
  /\ (bs_items σn !! js "k" = Some (js "NaN")
      /\ LocalStorage.get this0 (js "k") σn = (Fulfilled (JsString (js "NaN")), σn)).
Proof.
  intros v σ' σn. split; (split; [vm_compute; reflexivity|]).
  - apply (set_get_primitive this0 (js "k") v store0 σ'); vm_compute; reflexivity.
  - apply (set_get_primitive this0 (js "k") (JsNumber NaN) store0 σn); vm_compute; reflexivity.
Defined.



(** X3. A write to one key does not disturb another key: when [set(k, v)] or
    [remove(k)] has resolved, [get] of any other key resolves with the value
    it resolved with before. *)
Theorem other_keys_undisturbed {StorageEngine : Type} (this : LocalStorage.t StorageEngine)
    (k k' : JsStr) (v : JsValue) (σ σ' : BrowserStore) :
  k <> k' ->
  LocalStorage.set this k v σ = (Fulfilled JsUndefined, σ')
  \/ LocalStorage.remove this k σ = (Fulfilled JsUndefined, σ') ->
  fst (LocalStorage.get this k' σ') = fst (LocalStorage.get this k' σ)
  /\ exists r, fst (LocalStorage.get this k' σ) = Fulfilled r.
Proof.
  intros Hne [H|H].
  - destruct (set_resolved_store _ _ _ _ _ _ H) as (c & _ & Ha & _ & _ & ->).
    rewrite !get_available by assumption. cbn [with_items bs_items fst].
    rewrite lookup_insert_ne by assumption. split; [reflexivity|by eexists].
  - destruct (remove_resolved_store _ _ _ _ _ H) as (Ha & _ & ->).
    rewrite !get_available by assumption. cbn [with_items bs_items fst].
    rewrite lookup_delete_ne by assumption. split; [reflexivity|by eexists].
Qed.

Lemma other_keys_undisturbed_witness :
  let σ := snd (LocalStorage.set this0 (js "a") (JsArray [JsInt 1; JsInt 2]) store0) in
  let σ1 := snd (LocalStorage.set this0 (js "b") (JsString (js "x")) σ) in
  let σ2 := snd (LocalStorage.remove this0 (js "b") σ) in
  fst (LocalStorage.get this0 (js "a") σ1) = Fulfilled (JsArray [JsInt 1; JsInt 2])
  /\ fst (LocalStorage.get this0 (js "a") σ2) = Fulfilled (JsArray [JsInt 1; JsInt 2]).
Proof.
  intros σ σ1 σ2.
  assert (Hne : js "b" <> js "a") by discriminate.
  assert (H1 : LocalStorage.set this0 (js "b") (JsString (js "x")) σ = (Fulfilled JsUndefined, σ1))
    by (vm_compute; reflexivity).
  assert (H2 : LocalStorage.remove this0 (js "b") σ = (Fulfilled JsUndefined, σ2))
    by (vm_compute; reflexivity).
  split.
  - rewrite (proj1 (other_keys_undisturbed this0 (js "b") (js "a") (JsString (js "x"))
                      σ σ1 Hne (or_introl H1))).
    vm_compute. reflexivity.
  - rewrite (proj1 (other_keys_undisturbed this0 (js "b") (js "a") JsUndefined
                      σ σ2 Hne (or_intror H2))).
    vm_compute. reflexivity.
Defined.

(** X4. The last write wins and the earlier one leaves no trace: when
    [set(k, v1)] and then [set(k, v2)] have resolved, the store is the one
    that [set(k, v2)] alone would have left, and that [set] would have
    resolved too. *)
Theorem set_overwrites {StorageEngine : Type} (this : LocalStorage.t StorageEngine)
    (k : JsStr) (v1 v2 : JsValue) (σ σ1 σ2 : BrowserStore) :
  LocalStorage.set this k v1 σ = (Fulfilled JsUndefined, σ1) ->
  LocalStorage.set this k v2 σ1 = (Fulfilled JsUndefined, σ2) ->
  LocalStorage.set this k v2 σ = (Fulfilled JsUndefined, σ2).
Proof.
  intros H1 H2.
  destruct (set_resolved_store _ _ _ _ _ _ H1) as (c1 & _ & Ha & _ & _ & ->).
  destruct (set_resolved_store _ _ _ _ _ _ H2) as (c2 & Hc2 & _ & Hq & _ & ->).
  cbn [with_items bs_items bs_quota bs_available] in *.
  rewrite insert_insert_eq in *.
  rewrite (set_store_resolves this k v2 c2 σ Hc2 Ha Hq). reflexivity.
Qed.

Lemma set_overwrites_witness :
  let σ1 := snd (LocalStorage.set this0 (js "k") (JsArray [JsInt 1; JsInt 2; JsInt 3]) store0) in
  let σ2 := snd (LocalStorage.set this0 (js "k") (JsString (js "second")) σ1) in
  LocalStorage.set this0 (js "k") (JsString (js "second")) store0 = (Fulfilled JsUndefined, σ2)
  /\ bs_items σ2 = {[ js "k" := js "second" ]}.
Proof.
  intros σ1 σ2. split.
  - apply (set_overwrites this0 (js "k") (JsArray [JsInt 1; JsInt 2; JsInt 3])
             (JsString (js "second")) store0 σ1 σ2); vm_compute; reflexivity.
  - vm_compute. reflexivity.
Defined.

(** X5. [remove] of a key that has no entry resolves and changes nothing. *)
Theorem remove_missing_key {StorageEngine : Type} (this : LocalStorage.t StorageEngine)
    (k : JsStr) (σ : BrowserStore) :
  bs_available σ = true ->
  bs_items σ !! k = None ->
  LocalStorage.remove this k σ = (Fulfilled JsUndefined, σ).
Proof.
  intros Ha Hk. rewrite remove_spec.
  cbn [Storage.removeItem browser_storage]. unfold browser_removeItem.
  rewrite Ha, delete_id by assumption. by rewrite with_items_same.
Qed.

Lemma remove_missing_key_witness :
  LocalStorage.remove this0 (js "absent") store_full = (Fulfilled JsUndefined, store_full).
Proof.
  apply (remove_missing_key this0 (js "absent") store_full); vm_compute; reflexivity.
Defined.

(** X6. [remove] undoes a [set] that created the entry: when the key had no
    entry and [set(k, v)] has resolved, [remove(k)] resolves and the store is
    again what it was before the [set]. *)
Theorem remove_undoes_fresh_set {StorageEngine : Type} (this : LocalStorage.t StorageEngine)
    (k : JsStr) (v : JsValue) (σ σ' : BrowserStore) :
  bs_items σ !! k = None ->
  LocalStorage.set this k v σ = (Fulfilled JsUndefined, σ') ->
  LocalStorage.remove this k σ' = (Fulfilled JsUndefined, σ).
Proof.
  intros Hk H. rewrite remove_spec.
  cbn [Storage.removeItem browser_storage]. unfold browser_removeItem.
  destruct (set_resolved_store _ _ _ _ _ _ H) as (c & _ & Ha & _ & _ & ->).
  cbn [with_items bs_items bs_quota bs_available]. rewrite Ha.
  rewrite delete_insert_id by assumption.
  unfold with_items. cbn [bs_items bs_quota bs_available]. by destruct σ.
Qed.

Lemma remove_undoes_fresh_set_witness :
  LocalStorage.remove this0 (js "n") (snd (LocalStorage.set this0 (js "n") (JsInt 7) store_full))
  = (Fulfilled JsUndefined, store_full).
Proof.
  apply (remove_undoes_fresh_set this0 (js "n") (JsInt 7) store_full);
    vm_compute; reflexivity.
Defined.

(** ** Strings that are JSON texts *)

Lemma parse_string_chars_shorter (n : nat) :
  forall s r rest,
    (length s <= n)%nat ->
    parse_string_chars s = Some (r, rest) -> (length r + length rest < length s)%nat.
Proof.
  induction n as [|n IH]; intros s r rest Hn H.
  - destruct s; [discriminate|simpl in Hn; lia].
  - destruct s as [|c t]; [discriminate|]. cbn [parse_string_chars] in H.
    simpl in Hn.
    destruct (c =? 34); [injection H as <- <-; simpl; lia|].
    destruct (c =? 92).
    + destruct t as [|e t']; [discriminate|].
      destruct (e =? 117).
      * destruct t' as [|h1 [|h2 [|h3 [|h4 t'']]]]; try discriminate.
        destruct (hex4 h1 h2 h3 h4); [|discriminate].
        destruct (parse_string_chars t'') as [[r' rest']|] eqn:E; [|discriminate].
        injection H as <- <-. apply IH in E; simpl in *; lia.
      * destruct (unescape e); [|discriminate].
        destruct (parse_string_chars t') as [[r' rest']|] eqn:E; [|discriminate].
        injection H as <- <-. apply IH in E; simpl in *; lia.
    + destruct (c <? 32); [discriminate|].
      destruct (parse_string_chars t) as [[r' rest']|] eqn:E; [|discriminate].
      injection H as <- <-. apply IH in E; simpl in *; lia.
Qed.

(** A string read from a text is shorter than the text: the text has the two
    quotes, and an escape is longer than the code unit it stands for. *)
Lemma parse_value_string_shorter (f : nat) (s r rest : JsStr) :
  parse_value f s = POk (JsString r) rest -> (length r < length s)%nat.
Proof.
  destruct f as [|f]; [discriminate|]. cbn [parse_value].
  destruct (skip_ws s) as [|c t] eqn:Es; [discriminate|].
  apply skip_ws_cons_length in Es.
  destruct (c =? 91); [|destruct (c =? 123); [|destruct (c =? 34);
                         [|destruct ((c =? 45) || is_digit c)]]].
  - destruct (skip_ws t) as [|c' t']; [discriminate|].
    destruct (c' =? 93); [discriminate|].
    intros H. apply presult_map_ok in H as (l & _ & Hl). discriminate.
  - destruct (skip_ws t) as [|c' t']; [discriminate|].
    destruct (c' =? 125); [discriminate|].
    intros H. apply presult_map_ok in H as (l & _ & Hl). discriminate.
  - destruct (parse_string_chars t) as [[str rest']|] eqn:E; [|discriminate].
    apply (parse_string_chars_shorter (length t)) in E; [|lia].
    intros [= <- <-]. lia.
  - destruct (parse_number (c :: t)) as [[x rest']|]; discriminate.
  - repeat (destruct (strip_prefix _ _); [discriminate|]). discriminate.
Qed.

Lemma JSON_parse_text_not_itself (s : JsStr) (v : JsValue) :
  JSON_parse_text s = Normal v -> v <> JsString s.
Proof.
  unfold JSON_parse_text.
  destruct (parse_value (2 * length s + 1) s) as [v' rest| |] eqn:E; try discriminate.
  destruct (skip_ws rest); [|discriminate].
  intros [= <-] ->. apply parse_value_string_shorter in E. lia.
Qed.

(** X7. A string is read back as it was written exactly when it is not a
    JSON text: once [set(k, s)] has resolved, [get(k)] resolves with the
    string [s] if and only if [JSON.parse(s)] raises. *)
Theorem string_read_back_iff {StorageEngine : Type} (this : LocalStorage.t StorageEngine)
    (k s : JsStr) (σ σ' : BrowserStore) :
  LocalStorage.set this k (JsString s) σ = (Fulfilled JsUndefined, σ') ->
  LocalStorage.get this k σ' = (Fulfilled (JsString s), σ')
  <-> exists e, JSON_parse (JsString s) = Throw e.
Proof.
  intros Hset.
  destruct (set_resolved _ _ _ _ _ _ Hset) as (c & Hc & Ha & Hk).
  injection Hc as <-. cbn [ToString] in Hk.
  rewrite (get_available _ _ _ Ha), Hk. cbn [item_value].
  unfold decode. split.
  - destruct (JSON_parse (JsString s)) as [v|e] eqn:E; [|by eexists].
    intros [= ->]. exfalso. by apply (JSON_parse_text_not_itself s (JsString s)).
  - intros [e ->]. reflexivity.
Qed.

Lemma string_read_back_iff_witness :
  let σ1 := snd (LocalStorage.set this0 (js "k") (JsString (js "12 apples")) store0) in
  let σ2 := snd (LocalStorage.set this0 (js "k") (JsString (js "12")) store0) in
  LocalStorage.get this0 (js "k") σ1 = (Fulfilled (JsString (js "12 apples")), σ1)
  /\ LocalStorage.get this0 (js "k") σ2 <> (Fulfilled (JsString (js "12")), σ2).
Proof.
  intros σ1 σ2. split.
  - apply (string_read_back_iff this0 (js "k") (js "12 apples") store0 σ1).
    + vm_compute. reflexivity.
    + eexists. vm_compute. reflexivity.
  - intros H.
    apply (string_read_back_iff this0 (js "k") (js "12") store0 σ2) in H as [e He].
    + vm_compute in He. discriminate He.
    + vm_compute. reflexivity.
Defined.

(** X8. A string that is the JSON text of a string comes back without its
    quotes and escapes: once [set(k, t)] has resolved, where [t] is the text
    that [JSON.stringify] gives for a string [s], [get(k)] resolves with
    [s]. *)
Theorem set_get_quoted_string {StorageEngine : Type} (this : LocalStorage.t StorageEngine)
    (k s : JsStr) (σ σ' : BrowserStore) :
  LocalStorage.set this k (JsString (QuoteJSONString s)) σ = (Fulfilled JsUndefined, σ') ->
  LocalStorage.get this k σ' = (Fulfilled (JsString s), σ').
Proof.
  intros Hset.
  destruct (set_resolved _ _ _ _ _ _ Hset) as (c & Hc & Ha & Hk).
  injection Hc as <-. cbn [ToString] in Hk.
  rewrite (get_available _ _ _ Ha), Hk. cbn [item_value].
  unfold decode, JSON_parse. cbn [ToString].
  by rewrite (JSON_parse_text_serialized (JsString s) (QuoteJSONString s)).
Qed.

Lemma set_get_quoted_string_witness :
  let s := [104; 105; 10; 34] in
  let σ' := snd (LocalStorage.set this0 (js "k") (JsString (QuoteJSONString s)) store0) in
  bs_items σ' !! js "k" = Some ([34] ++ js "hi\n\" ++ [34; 34])
  /\ LocalStorage.get this0 (js "k") σ' = (Fulfilled (JsString s), σ').
Proof.
  intros s σ'. split; [vm_compute; reflexivity|].
  apply (set_get_quoted_string this0 (js "k") s store0 σ').
  vm_compute. reflexivity.
Defined.

(** ** Arrays that [JSON.stringify] refuses *)

Lemma cmapM_throw_inv {A B} (f : A -> Completion B) (l : list A) (e : JsError) :
  cmapM f l = Throw e -> exists x, x ∈ l /\ f x = Throw e.
Proof.
  induction l as [|x t IH]; [discriminate|].
  rewrite cmapM_cons. destruct (f x) as [y|e'] eqn:Ex.
  - cbn [cbind]. destruct (cmapM f t) as [ys|e'] eqn:Et; [discriminate|].
    intros [= ->]. destruct (IH eq_refl) as (x' & Hin & Hx').
    exists x'. split; [by right|assumption].
  - intros [= ->]. exists x. split; [by left|assumption].
Qed.

Lemma cmapM_normal {A B} (f : A -> Completion B) (l : list A) :
  Forall (fun x => exists y, f x = Normal y) l -> exists ys, cmapM f l = Normal ys.
Proof.
  induction 1 as [|x t [y Hy] _ [ys Hys]]; [by exists []|].
  exists (y :: ys). by rewrite cmapM_cons, Hy, Hys.
Qed.

(** The only error of the serialization is the one for a BigInt. *)
Lemma SerializeJSONProperty_error (v : JsValue) (e : JsError) :
  SerializeJSONProperty v = Throw e -> e = BigInt_not_serializable.
Proof.
  revert e.
  induction v as [| |b|x|z|s|elems IH|props IH] using JsValue_nested_ind;
    intros e; try discriminate.
  - by destruct b.
  - by intros [= <-].
  - rewrite SerializeJSONProperty_array.
    destruct (cmapM serialize_element elems) as [parts|e'] eqn:E; [discriminate|].
    intros [= ->]. apply cmapM_throw_inv in E as (x & Hin & Hx).
    rewrite Forall_forall in IH. apply (IH x Hin).
    unfold serialize_element in Hx.
    destruct (SerializeJSONProperty x); simpl in Hx; congruence.
  - rewrite SerializeJSONProperty_object.
    destruct (cmapM serialize_member props) as [parts|e'] eqn:E; [discriminate|].
    intros [= ->]. apply cmapM_throw_inv in E as (kv & Hin & Hx).
    rewrite Forall_forall in IH. apply (IH kv Hin).
    unfold serialize_member in Hx.
    destruct (SerializeJSONProperty (snd kv)); simpl in Hx; congruence.
Qed.

Lemma cmapM_throws_at {A B} (f : A -> Completion B) (bad : A -> bool) (l : list A)
    (e : JsError) :
  (forall x e', f x = Throw e' -> e' = e) ->
  Forall (fun x => bad x = true -> f x = Throw e) l ->
  existsb bad l = true ->
  cmapM f l = Throw e.
Proof.
  intros Honly Hall. induction Hall as [|x t Hx _ IH]; [discriminate|].
  cbn [existsb]. intros Hex. rewrite cmapM_cons.
  destruct (f x) as [y|e'] eqn:Ex.
  - cbn [cbind]. rewrite IH; [reflexivity|].
    destruct (bad x); [|assumption]. specialize (Hx eq_refl). congruence.
  - cbn [cbind]. f_equal. by apply (Honly x).
Qed.

(** The serialization raises exactly when a BigInt occurs in the value. *)
Lemma SerializeJSONProperty_bigint (v : JsValue) :
  if has_bigint v then SerializeJSONProperty v = Throw BigInt_not_serializable
  else exists r, SerializeJSONProperty v = Normal r.
Proof.
  induction v as [| |b|x|z|s|elems IH|props IH] using JsValue_nested_ind;
    cbn [has_bigint]; try (by eexists); try reflexivity.
  - destruct b; by eexists.
  - rewrite SerializeJSONProperty_array.
    destruct (existsb has_bigint elems) eqn:Hex.
    + rewrite (cmapM_throws_at serialize_element has_bigint elems BigInt_not_serializable);
        [reflexivity| | |assumption].
      * intros x e' Hx. apply (SerializeJSONProperty_error x).
        unfold serialize_element in Hx.
        destruct (SerializeJSONProperty x); simpl in Hx; congruence.
      * eapply Forall_impl; [exact IH|]. intros x Hx Hb. cbn beta in Hx. rewrite Hb in Hx.
        unfold serialize_element. by rewrite Hx.
    + destruct (cmapM_normal serialize_element elems) as [parts ->]; [|by eexists].
      rewrite Forall_forall in *. intros x Hin. specialize (IH x Hin). cbn beta in IH.
      assert (Hb : has_bigint x = false).
      { destruct (has_bigint x) eqn:Hb; [|reflexivity].
        assert (existsb has_bigint elems = true); [|congruence].
        apply existsb_exists. exists x. split; [by apply list_elem_of_In|assumption]. }
      rewrite Hb in IH. destruct IH as [r Hr]. unfold serialize_element.
      rewrite Hr. by eexists.
  - rewrite SerializeJSONProperty_object.
    destruct (existsb (fun kv => has_bigint (snd kv)) props) eqn:Hex.
    + rewrite (cmapM_throws_at serialize_member (fun kv => has_bigint (snd kv)) props
                 BigInt_not_serializable); [reflexivity| | |assumption].
      * intros kv e' Hx. apply (SerializeJSONProperty_error (snd kv)).
        unfold serialize_member in Hx.
        destruct (SerializeJSONProperty (snd kv)); simpl in Hx; congruence.
      * eapply Forall_impl; [exact IH|]. intros kv Hx Hb. cbn beta in Hx. rewrite Hb in Hx.
        unfold serialize_member. by rewrite Hx.
    + destruct (cmapM_normal serialize_member props) as [parts ->]; [|by eexists].
      rewrite Forall_forall in *. intros kv Hin. specialize (IH kv Hin). cbn beta in IH.
      assert (Hb : has_bigint (snd kv) = false).
      { destruct (has_bigint (snd kv)) eqn:Hb; [|reflexivity].
        assert (existsb (fun kv => has_bigint (snd kv)) props = true); [|congruence].
        apply existsb_exists. exists kv. split; [by apply list_elem_of_In|assumption]. }
      rewrite Hb in IH. destruct IH as [r Hr]. unfold serialize_member.
      rewrite Hr. by eexists.
Qed.

(** X9. On any host: when a BigInt occurs anywhere in an array,
    [JSON.stringify] raises on the array and [set] rejects with that error;
    the host state is the one [set] started from, the store was not
    called. *)
Theorem set_rejects_array_with_bigint {S : Type} `{!Storage.Interface S}
    {StorageEngine : Type} (this : LocalStorage.t StorageEngine)
    (key : JsStr) (elems : list JsValue) (σ : S) :
  has_bigint (JsArray elems) = true ->
  exists e,
    JSON_stringify (JsArray elems) = Throw e
    /\ LocalStorage.set this key (JsArray elems) σ = (Rejected e, σ).
Proof.
  intros Hbig.
  pose proof (SerializeJSONProperty_bigint (JsArray elems)) as Hser.
  rewrite Hbig in Hser. exists BigInt_not_serializable.
  assert (Hs : JSON_stringify (JsArray elems) = Throw BigInt_not_serializable)
    by (unfold JSON_stringify; by rewrite Hser).
  split; [exact Hs|].
  rewrite set_spec. unfold LocalStorage.testForArray. cbn [Array_isArray].
  by rewrite Hs.
Qed.

Lemma set_rejects_array_with_bigint_witness :
  let v := [JsInt 1; JsObject [(js "a", JsArray [JsString (js "x"); JsBigInt 7])]] in
  exists e,
    JSON_stringify (JsArray v) = Throw e
    /\ LocalStorage.set this0 (js "k") (JsArray v) store_full = (Rejected e, store_full).
Proof.
  intros v.
  apply (set_rejects_array_with_bigint this0 (js "k") v store_full).
  vm_compute. reflexivity.
Defined.

(** ** What is read back of an array *)

Lemma JSON_image_array (elems : list JsValue) :
  JSON_image (JsArray elems) = JsArray (map element_image elems).
Proof. reflexivity. Qed.

Lemma JSON_image_object (props : list (JsStr * JsValue)) :
  JSON_image (JsObject props) = JsObject (members_image props).
Proof. reflexivity. Qed.

Lemma members_image_cons (k : JsStr) (x : JsValue) (t : list (JsStr * JsValue)) :
  x <> JsUndefined -> members_image ((k, x) :: t) = (k, JSON_image x) :: members_image t.
Proof. destruct x; try reflexivity. contradiction. Qed.

Lemma element_image_defined (x : JsValue) :
  x <> JsUndefined -> element_image x = JSON_image x.
Proof. destruct x; try reflexivity. contradiction. Qed.

Lemma undefined_or_not (x : JsValue) : x = JsUndefined \/ x <> JsUndefined.
Proof. destruct x; (by left) || (right; discriminate). Qed.

Lemma reads_back_null : reads_back JsNull (js "null").
Proof.
  split; [by exists 110, (js "ull")|].
  intros [|f] rest Hf _; [simpl in Hf; lia|reflexivity].
Qed.

(** Reading a printed list of elements, when each text is read back as the
    image [g] of its element. *)
Lemma elements_read_back_as (g : JsValue -> JsValue) (l : list JsValue) :
  Forall (fun x => exists s, serialize_element x = Normal s /\ reads_back (g x) s) l ->
  l <> [] ->
  exists parts,
    cmapM serialize_element l = Normal parts
    /\ (exists c t, join (js ",") parts = c :: t /\ value_start c = true)
    /\ forall fuel rest,
         (list_sum (map (fun x => S (vsize x)) (map g l)) <= fuel)%nat ->
         parse_elements fuel (join (js ",") parts ++ 93 :: rest) = POk (map g l) rest.
Proof.
  induction 1 as [|v t (s & Hv & Hhead & Hread) Ht IH]; [contradiction|]. intros _.
  destruct t as [|v' t'].
  - exists [s]. rewrite cmapM_cons, Hv. split; [reflexivity|]. split; [exact Hhead|].
    intros [|f] rest Hf; [simpl in Hf; lia|].
    cbn [join parse_elements map]. rewrite Hread; [|simpl in Hf; lia|reflexivity].
    reflexivity.
  - destruct IH as (parts & Hparts & (c & r & Hj & Hc) & Hreadt); [discriminate|].
    exists (s :: parts). rewrite cmapM_cons, Hv. cbn [cbind]. rewrite Hparts.
    split; [reflexivity|].
    assert (Hne : parts <> []) by (intros ->; discriminate).
    rewrite join_cons by assumption. split.
    + destruct Hhead as (c0 & t0 & -> & Hc0). by exists c0, (t0 ++ js "," ++ join (js ",") parts).
    + intros [|f] rest Hf; [simpl in Hf; lia|].
      cbn [parse_elements]. rewrite <- !app_assoc.
      change (js "," ++ join (js ",") parts ++ 93 :: rest)
        with (44 :: join (js ",") parts ++ 93 :: rest).
      rewrite Hread; [|simpl in Hf; lia|reflexivity].
      cbn [skip_ws]. change (is_ws 44) with false. cbv iota.
      change (44 =? 44) with true. cbv iota.
      rewrite Hreadt; [reflexivity|]. simpl in Hf |- *. lia.
Qed.

(** Reading the printed members of an object, when the properties whose value
    is [undefined] were left out. *)
Lemma members_read_back_as (props : list (JsStr * JsValue)) :
  Forall (fun kv => snd kv <> JsUndefined ->
                    exists s, SerializeJSONProperty (snd kv) = Normal (Some s)
                              /\ reads_back (JSON_image (snd kv)) s) props ->
  exists parts,
    cmapM serialize_member props = Normal parts
    /\ (members_image props = [] -> omap id parts = [])
    /\ (members_image props <> [] ->
        (exists t, join (js ",") (omap id parts) = 34 :: t)
        /\ forall fuel rest,
             (list_sum (map (fun kv => S (vsize (snd kv))) (members_image props)) <= fuel)%nat ->
             parse_members fuel (join (js ",") (omap id parts) ++ 125 :: rest)
             = POk (members_image props) rest).
Proof.
  induction 1 as [|[k v] t Hkv Ht (parts & Hparts & Hnil & Hcons)].
  - exists []. split; [reflexivity|]. split; [reflexivity|]. intros Hne. by contradiction Hne.
  - cbn [snd] in Hkv. destruct (undefined_or_not v) as [->|Hdef].
    + exists (None :: parts). rewrite cmapM_cons.
      change (serialize_member (k, JsUndefined)) with (@Normal (option JsStr) None).
      cbn [cbind]. rewrite Hparts. split; [reflexivity|].
      cbn [members_image]. change (omap id (None :: parts)) with (omap id parts).
      split; assumption.
    + destruct (Hkv Hdef) as (s & Hs & Hhead & Hread).
      set (m := QuoteJSONString k ++ js ":" ++ s).
      assert (Hv : serialize_member (k, v) = Normal (Some m)).
      { unfold serialize_member. cbn [fst snd]. by rewrite Hs. }
      assert (Hm : forall tail f,
                 (vsize (JSON_image v) <= f)%nat -> value_end tail = true ->
                 parse_members (S f) (m ++ tail)
                 = match skip_ws tail with
                   | [] => PErr
                   | c' :: r3 =>
                       if c' =? 44
                       then presult_map (cons (k, JSON_image v)) (parse_members f r3)
                       else if c' =? 125 then POk [(k, JSON_image v)] r3
                       else PErr
                   end).
      { intros tail f Hf Htail. unfold m, QuoteJSONString.
        cbn [parse_members app skip_ws]. change (is_ws 34) with false. cbv iota.
        change (negb (34 =? 34)) with false. cbv iota.
        rewrite <- !app_assoc. cbn [app].
        rewrite parse_string_chars_quote.
        change (js ":" ++ s ++ tail) with (58 :: s ++ tail).
        cbn [skip_ws]. change (is_ws 58) with false. cbv iota.
        change (negb (58 =? 58)) with false. cbv iota.
        rewrite Hread by assumption. reflexivity. }
      exists (Some m :: parts). rewrite cmapM_cons, Hv. cbn [cbind]. rewrite Hparts.
      split; [reflexivity|].
      rewrite members_image_cons by assumption.
      change (omap id (Some m :: parts)) with (m :: omap id parts).
      split; [discriminate|]. intros _.
      destruct (members_image t) as [|kv' t'] eqn:Et.
      * rewrite Hnil by reflexivity. cbn [join]. split; [by eexists|].
        intros [|f] rest Hf; [simpl in Hf; lia|].
        rewrite Hm; [reflexivity| |reflexivity]. simpl in Hf. lia.
      * destruct Hcons as ((r & Hj) & Hreadt); [discriminate|].
        assert (Hne : omap id parts <> []) by (intros Hn; rewrite Hn in Hj; discriminate).
        rewrite join_cons by assumption. split; [by eexists|].
        intros [|f] rest Hf; [simpl in Hf; lia|].
        rewrite <- !app_assoc.
        change (js "," ++ join (js ",") (omap id parts) ++ 125 :: rest)
          with (44 :: join (js ",") (omap id parts) ++ 125 :: rest).
        rewrite Hm; [|simpl in Hf; lia|reflexivity].
        cbn [skip_ws]. change (is_ws 44) with false. cbv iota.
        change (44 =? 44) with true. cbv iota.
        rewrite Hreadt; [reflexivity|]. simpl in Hf |- *. lia.
Qed.

Lemma appendable_subseteq (seen seen' : list JsStr) (k : JsStr) :
  seen' ⊆ seen -> appendable seen k = true -> appendable seen' k = true.
Proof.
  unfold appendable. intros Hsub H. apply andb_true_iff in H as [Hfresh Hidx].
  apply andb_true_iff. split.
  - apply negb_true_iff, bool_decide_eq_false in Hfresh.
    apply negb_true_iff, bool_decide_eq_false. intros Hin. apply Hfresh. by apply Hsub.
  - destruct (array_index k) as [i|]; [|reflexivity].
    rewrite forallb_forall in *. intros x Hx. apply Hidx.
    apply list_elem_of_In, Hsub, list_elem_of_In, Hx.
Qed.

(** Leaving properties out keeps the other keys in enumeration order. *)
Lemma keys_in_order_members_image (props : list (JsStr * JsValue)) :
  forall seen seen',
    seen' ⊆ seen ->
    keys_in_order_from seen (map fst props) = true ->
    keys_in_order_from seen' (map fst (members_image props)) = true.
Proof.
  induction props as [|[k v] t IH]; intros seen seen' Hsub H; [reflexivity|].
  cbn [map fst keys_in_order_from] in H. apply andb_true_iff in H as [Hk Ht].
  destruct (undefined_or_not v) as [->|Hdef].
  - cbn [members_image]. apply (IH (seen ++ [k])); [|assumption].
    intros x Hx. apply elem_of_app. left. by apply Hsub.
  - rewrite members_image_cons by assumption. cbn [map fst keys_in_order_from].
    apply andb_true_iff. split; [by apply (appendable_subseteq seen)|].
    apply (IH (seen ++ [k])); [|assumption].
    intros x Hx. apply elem_of_app in Hx as [Hx|Hx]; apply elem_of_app; [left; by apply Hsub|by right].
Qed.

Lemma reads_back_parse_text (v : JsValue) (s : JsStr) :
  reads_back v s -> JSON_parse_text s = Normal v.
Proof.
  intros [_ Hread]. unfold JSON_parse_text.
  set (fuel := Nat.max (2 * length s + 1) (vsize v)).
  rewrite <- (parse_value_fuel_irrelevant s fuel) by lia.
  pose proof (Hread fuel [] ltac:(lia) eq_refl) as H.
  rewrite app_nil_r in H. rewrite H. reflexivity.
Qed.

(** Every value without a BigInt, other than [undefined], has a JSON text,
    and the text is read back as the image of the value. *)
Lemma stringifiable_reads_back (v : JsValue) :
  stringifiable v = true -> v <> JsUndefined ->
  exists s, SerializeJSONProperty v = Normal (Some s) /\ reads_back (JSON_image v) s.
Proof.
  induction v as [| |b|x|z|s|elems IH|props IH] using JsValue_nested_ind;
    cbn [stringifiable]; intros Hv Hdef; try discriminate; try contradiction.
  - exists (js "null"). split; [reflexivity|apply reads_back_null].
  - destruct (JSON_serializable_serializes (JsBool b) eq_refl) as (s & Hs & Hr). by exists s.
  - destruct x as [m sc| | |negative].
    + exists (Number_toString (Num m sc)). split; [reflexivity|]. by apply reads_back_number.
    + exists (js "0"). split; [reflexivity|]. by apply (reads_back_number (Num 0 0)).
    + exists (js "null"). split; [reflexivity|apply reads_back_null].
    + exists (js "null"). split; [reflexivity|apply reads_back_null].
  - exists (QuoteJSONString s). split; [reflexivity|]. apply reads_back_string.
  - assert (Hall : Forall (fun x => exists s, serialize_element x = Normal s
                                           /\ reads_back (element_image x) s) elems).
    { rewrite forallb_forall in Hv. rewrite Forall_forall in *.
      intros x Hx. destruct (undefined_or_not x) as [->|Hx'].
      - exists (js "null"). split; [reflexivity|apply reads_back_null].
      - destruct (IH x Hx) as (s & Hs & Hr); [apply Hv; by apply list_elem_of_In|assumption|].
        exists s. unfold serialize_element. rewrite Hs, element_image_defined by assumption.
        by split. }
    rewrite SerializeJSONProperty_array, JSON_image_array.
    destruct elems as [|v0 t0].
    + exists (js "[]"). split; [reflexivity|]. split; [by exists 91, [93]|].
      intros [|f] rest Hf _; [simpl in Hf; lia|reflexivity].
    + destruct (elements_read_back_as element_image (v0 :: t0) Hall ltac:(discriminate))
        as (parts & Hparts & (c & r & Hj & Hc) & Hread).
      rewrite Hparts. eexists. split; [reflexivity|].
      split; [by exists 91, (join (js ",") parts ++ js "]")|].
      intros [|f] rest Hf Hr; [simpl in Hf; lia|].
      change ((js "[" ++ join (js ",") parts ++ js "]") ++ rest)
        with (91 :: (join (js ",") parts ++ js "]") ++ rest).
      rewrite <- app_assoc. change (js "]" ++ rest) with (93 :: rest).
      cbn [parse_value skip_ws]. change (is_ws 91) with false. cbv iota.
      change (91 =? 91) with true. cbv iota.
      destruct (value_start_spec c Hc) as (Hws & H93 & _).
      rewrite Hread by (cbn [vsize] in Hf; lia).
      rewrite Hj. cbn [app]. rewrite skip_ws_start, H93 by assumption. reflexivity.
  - apply andb_true_iff in Hv as [Hkeys Hvals].
    assert (Hall : Forall (fun kv => snd kv <> JsUndefined ->
                             exists s, SerializeJSONProperty (snd kv) = Normal (Some s)
                                       /\ reads_back (JSON_image (snd kv)) s) props).
    { rewrite forallb_forall in Hvals. rewrite Forall_forall in *.
      intros kv Hkv Hkv'. apply IH; [assumption| |assumption].
      apply Hvals. by apply list_elem_of_In. }
    assert (Hord : keys_in_order (map fst (members_image props)) = true).
    { unfold keys_in_order. by apply (keys_in_order_members_image props [] []). }
    rewrite SerializeJSONProperty_object, JSON_image_object.
    destruct (members_read_back_as props Hall) as (parts & Hparts & Hnil & Hcons).
    rewrite Hparts. eexists. split; [reflexivity|].
    split; [by exists 123, (join (js ",") (omap id parts) ++ js "}")|].
    intros [|f] rest Hf Hr; [simpl in Hf; lia|].
    change ((js "{" ++ join (js ",") (omap id parts) ++ js "}") ++ rest)
      with (123 :: (join (js ",") (omap id parts) ++ js "}") ++ rest).
    rewrite <- app_assoc. change (js "}" ++ rest) with (125 :: rest).
    cbn [parse_value skip_ws]. change (is_ws 123) with false. cbv iota.
    change (123 =? 91) with false. change (123 =? 123) with true. cbv iota.
    destruct (members_image props) as [|kv0 t0] eqn:Em.
    + rewrite Hnil by reflexivity. reflexivity.
    + destruct Hcons as ((r & Hj) & Hread); [discriminate|].
      rewrite Hread by (cbn [vsize] in Hf; lia).
      rewrite Hj. cbn [app skip_ws]. change (is_ws 34) with false. cbv iota.
      change (34 =? 125) with false. cbv iota. cbn [presult_map].
      by rewrite object_of_entries_in_order.
Qed.

(** The JSON text of an array without a BigInt decodes to the image of the
    array. *)
Lemma decode_array_text (elems : list JsValue) :
  stringifiable (JsArray elems) = true ->
  exists text,
    SerializeJSONArray elems = Normal text
    /\ decode (JsString text) = JSON_image (JsArray elems).
Proof.
  intros Hv.
  destruct (stringifiable_reads_back _ Hv ltac:(discriminate)) as (s & Hs & Hr).
  exists s. split; [by apply SerializeJSONArray_property|].
  unfold decode, JSON_parse. cbn [ToString].
  by rewrite (reads_back_parse_text _ _ Hr).
Qed.

(** X10. What is read back of an array: once [set(k, v)] has resolved for
    an array of undefined, null, booleans, numbers, strings, arrays and
    ordinary objects in which no BigInt occurs, [get(k)] resolves with the
    array in which, at every depth, each element [undefined] has become
    [null], each property whose value is [undefined] is gone, each number
    that is not finite has become [null] and each negative zero has become
    zero; everything else is as it was written. *)
Theorem set_get_array_image {StorageEngine : Type} (this : LocalStorage.t StorageEngine)
    (k : JsStr) (elems : list JsValue) (σ σ' : BrowserStore) :
  stringifiable (JsArray elems) = true ->
  LocalStorage.set this k (JsArray elems) σ = (Fulfilled JsUndefined, σ') ->
  LocalStorage.get this k σ' = (Fulfilled (JSON_image (JsArray elems)), σ').
Proof.
  intros Hv Hset.
  destruct (decode_array_text elems Hv) as (text & Htext & Hdec).
  destruct (set_resolved _ _ _ _ _ _ Hset) as (c & Hc & Ha & Hk).
  rewrite testForArray_array, Htext in Hc. injection Hc as <-. cbn [ToString] in Hk.
  by rewrite (get_available _ _ _ Ha), Hk, <- Hdec.
Qed.

Lemma set_get_array_image_witness :
  let v := [JsUndefined; JsInt 1; JsNumber NaN; JsNumber NegZero;
            JsObject [(js "a", JsUndefined); (js "b", JsArray [JsNumber (Infinity true)])]] in
  let σ' := snd (LocalStorage.set this0 (js "k") (JsArray v) store0) in
  bs_items σ' !! js "k"
  = Some (js "[null,1,null,0,{" ++ [34; 98; 34] ++ js ":[null]}]")
  /\ LocalStorage.get this0 (js "k") σ'
     = (Fulfilled (JsArray [JsNull; JsInt 1; JsNull; JsInt 0;
                            JsObject [(js "b", JsArray [JsNull])]]), σ').
Proof.
  intros v σ'. split; [vm_compute; reflexivity|].
  apply (set_get_array_image this0 (js "k") v store0 σ'); vm_compute; reflexivity.
Defined.

(** The image of a value is a value that JSON represents. *)
Lemma JSON_image_serializable (v : JsValue) :
  stringifiable v = true -> v <> JsUndefined -> JSON_serializable (JSON_image v) = true.
Proof.
  induction v as [| |b|x|z|s|elems IH|props IH] using JsValue_nested_ind;
    cbn [stringifiable]; intros Hv Hdef; try discriminate; try contradiction;
    try reflexivity; try assumption.
  - by destruct x.
  - rewrite JSON_image_array. cbn [JSON_serializable].
    rewrite forallb_forall in *. intros y Hy. apply in_map_iff in Hy as (x & <- & Hx).
    destruct (undefined_or_not x) as [->|Hx']; [reflexivity|].
    rewrite element_image_defined by assumption.
    rewrite Forall_forall in IH. apply IH; [by apply list_elem_of_In|by apply Hv|assumption].
  - apply andb_true_iff in Hv as [Hkeys Hvals].
    rewrite JSON_image_object. cbn [JSON_serializable]. apply andb_true_iff. split.
    + by apply (keys_in_order_members_image props [] []).
    + clear Hkeys. induction props as [|[k x] t IHt]; [reflexivity|].
      cbn [forallb snd] in Hvals. apply andb_true_iff in Hvals as [Hx Ht].
      inversion IH as [|? ? IHx IHrest]; subst.
      destruct (undefined_or_not x) as [->|Hx'].
      * cbn [members_image]. by apply IHt.
      * rewrite members_image_cons by assumption. cbn [forallb snd].
        apply andb_true_iff. split; [by apply IHx|by apply IHt].
Qed.

(** A value that JSON represents is its own image. *)
Lemma JSON_serializable_image (v : JsValue) :
  JSON_serializable v = true -> stringifiable v = true /\ JSON_image v = v.
Proof.
  induction v as [| |b|x|z|s|elems IH|props IH] using JsValue_nested_ind;
    cbn [JSON_serializable]; intros Hv; try discriminate; try (by split).
  - by destruct x.
  - rewrite JSON_image_array. cbn [stringifiable].
    induction elems as [|x t IHt]; [by split|].
    cbn [forallb] in Hv. apply andb_true_iff in Hv as [Hx Ht].
    inversion IH as [|? ? IHx IHrest]; subst.
    destruct (IHx Hx) as [Hx1 Hx2]. destruct (IHt IHrest Ht) as [Ht1 Ht2].
    injection Ht2 as Ht2. cbn [forallb map]. rewrite Hx1, Ht1, Ht2.
    split; [reflexivity|]. do 2 f_equal.
    rewrite element_image_defined; [assumption|]. intros ->. discriminate.
  - apply andb_true_iff in Hv as [Hkeys Hvals].
    rewrite JSON_image_object. cbn [stringifiable]. rewrite Hkeys. cbn [andb].
    clear Hkeys. induction props as [|[k x] t IHt]; [by split|].
    cbn [forallb snd] in Hvals. apply andb_true_iff in Hvals as [Hx Ht].
    inversion IH as [|? ? IHx IHrest]; subst. cbn [snd] in IHx.
    destruct (IHx Hx) as [Hx1 Hx2]. destruct (IHt IHrest Ht) as [Ht1 Ht2].
    injection Ht2 as Ht2. cbn [forallb snd]. rewrite Hx1, Ht1.
    split; [reflexivity|]. f_equal.
    rewrite members_image_cons by (intros ->; discriminate).
    by rewrite Hx2, Ht2.
Qed.

(** X11. What [get] gave for an array is read back exactly from then on:
    when [set(k, v)] has resolved for an array [v] in which no BigInt occurs
    and [get(k)] has resolved with [r], then once [set(k', r)] has resolved,
    in any store, [get(k')] resolves with [r] itself. *)
Theorem read_back_value_is_stable {StorageEngine : Type} (this : LocalStorage.t StorageEngine)
    (k k' : JsStr) (elems : list JsValue) (r : JsValue) (σ σ1 σ2 σ3 : BrowserStore) :
  stringifiable (JsArray elems) = true ->
  LocalStorage.set this k (JsArray elems) σ = (Fulfilled JsUndefined, σ1) ->
  LocalStorage.get this k σ1 = (Fulfilled r, σ1) ->
  LocalStorage.set this k' r σ2 = (Fulfilled JsUndefined, σ3) ->
  LocalStorage.get this k' σ3 = (Fulfilled r, σ3).
Proof.
  intros Hv Hset Hget Hset'.
  assert (Hr : r = JSON_image (JsArray elems)).
  { destruct (decode_array_text elems Hv) as (text & Htext & Hdec).
    destruct (set_resolved _ _ _ _ _ _ Hset) as (c & Hc & Ha & Hk).
    rewrite testForArray_array, Htext in Hc. injection Hc as <-. cbn [ToString] in Hk.
    rewrite (get_available _ _ _ Ha), Hk in Hget. cbn [item_value] in Hget.
    rewrite Hdec in Hget. by injection Hget as <-. }
  subst r. clear Hset Hget.
  pose proof (JSON_image_serializable _ Hv ltac:(discriminate)) as Hser.
  destruct (JSON_serializable_image _ Hser) as [Hv' Himg].
  change (JSON_image (JsArray elems)) with (JsArray (map element_image elems)) in *.
  destruct (decode_array_text _ Hv') as (text & Htext & Hdec).
  destruct (set_resolved _ _ _ _ _ _ Hset') as (c & Hc & Ha & Hk).
  rewrite testForArray_array, Htext in Hc. injection Hc as <-. cbn [ToString] in Hk.
  rewrite (get_available _ _ _ Ha), Hk. cbn [item_value]. by rewrite Hdec, Himg.
Qed.

Lemma read_back_value_is_stable_witness :
  let v := [JsUndefined; JsObject [(js "a", JsUndefined); (js "b", JsInt 1)]] in
  let r := JsArray [JsNull; JsObject [(js "b", JsInt 1)]] in
  let σ1 := snd (LocalStorage.set this0 (js "k") (JsArray v) store0) in
  let σ3 := snd (LocalStorage.set this0 (js "copy") r σ1) in
  LocalStorage.get this0 (js "k") σ1 = (Fulfilled r, σ1)
  /\ LocalStorage.get this0 (js "copy") σ3 = (Fulfilled r, σ3).
Proof.
  intros v r σ1 σ3.
  assert (H1 : LocalStorage.get this0 (js "k") σ1 = (Fulfilled r, σ1))
    by (vm_compute; reflexivity).
  split; [exact H1|].
  apply (read_back_value_is_stable this0 (js "k") (js "copy") v r store0 σ1 σ1 σ3);
    [vm_compute; reflexivity | vm_compute; reflexivity | exact H1 | vm_compute; reflexivity].
Defined.

(** ** What [get] never resolves with *)

(** The parser builds a value of the JSON grammar: never [undefined], never a
    BigInt. *)
Lemma parse_value_kind (f : nat) (s : JsStr) (v : JsValue) (rest : JsStr) :
  parse_value f s = POk v rest -> v <> JsUndefined /\ forall z, v <> JsBigInt z.
Proof.
  destruct f as [|f]; [discriminate|]. cbn [parse_value].
  destruct (skip_ws s) as [|c t]; [discriminate|].
  destruct (c =? 91); [|destruct (c =? 123); [|destruct (c =? 34);
                         [|destruct ((c =? 45) || is_digit c)]]].
  - destruct (skip_ws t) as [|c' t']; [discriminate|].
    destruct (c' =? 93); [by intros [= <- <-]|].
    intros H. apply presult_map_ok in H as (l & _ & ->). by split.
  - destruct (skip_ws t) as [|c' t']; [discriminate|].
    destruct (c' =? 125); [by intros [= <- <-]|].
    intros H. apply presult_map_ok in H as (l & _ & ->). by split.
  - destruct (parse_string_chars t) as [[str rest']|]; [|discriminate].
    by intros [= <- <-].
  - destruct (parse_number (c :: t)) as [[x rest']|]; [|discriminate].
    by intros [= <- <-].
  - repeat (destruct (strip_prefix _ _); [by intros [= <- <-]|]). discriminate.
Qed.

(** X12. On any host, [get] never resolves with [undefined] nor with a
    BigInt: a missing key gives [null], an item that is not a JSON text gives
    the item, a string, and an item that is a JSON text gives a value of the
    JSON grammar. *)
Theorem get_never_undefined {S : Type} `{!Storage.Interface S}
    {StorageEngine : Type} (this : LocalStorage.t StorageEngine)
    (key : JsStr) (σ : S) :
  fst (LocalStorage.get this key σ) <> Fulfilled JsUndefined
  /\ forall z, fst (LocalStorage.get this key σ) <> Fulfilled (JsBigInt z).
Proof.
  rewrite get_spec.
  destruct (Storage.getItem key σ) as [[r|e] σ']; cbn [fst]; [|by split].
  assert (Hd : decode (item_value r) <> JsUndefined
               /\ forall z, decode (item_value r) <> JsBigInt z).
  { unfold decode, JSON_parse, JSON_parse_text.
    destruct (parse_value _ _) as [v rest| |] eqn:E; [|by destruct r..].
    destruct (skip_ws rest); [|by destruct r].
    by apply parse_value_kind in E. }
  destruct Hd as [Hu Hb]. split; [|intros z]; intros [= Heq]; [by apply Hu|by apply (Hb z)].
Qed.
